(** * scel2rime: the SCEL table decoder and the filter/sort step

    A shallow embedding of [src/scel2rime.py].  Python values are modelled
    as follows:
    - [bytes] objects are lists of [byte];
    - Python integers that the decoder handles are never negative and are
      modelled by [nat] (they are unbounded, so there is no wrap-around);
      the command-line thresholds of the filter may be negative and are [Z];
    - a [str] is the list of its code points;
    - the dictionary [py_table] is a [gmap nat str];
    - exceptions and the local variables of [parse_scel] are threaded
      through a small state-and-exception monad, in which an assignment made
      before an exception is raised is still visible in the handler;
    - [while] loops take a fuel argument; running out of fuel is a separate
      outcome, and the totality lemmas show it is never reached. *)

From Stdlib Require Import Strings.Byte.
From stdpp Require Import gmap list sorting.

Local Open Scope nat_scope.

(** ** Bytes, slices and [struct.unpack] *)

Definition bytes := list byte.

#[global] Instance byte_eq_dec : EqDecision byte := Byte.byte_eq_dec.

(** The integer value of one byte. *)
Definition byte_val (b : byte) : nat := N.to_nat (Byte.to_N b).

(** [data[i:j]] for non-negative [i] and [j]: slicing never raises, it
    clips to the bytes that exist. *)
Definition slice (data : bytes) (i j : nat) : bytes :=
  take (j - i) (drop i data).

(** The unsigned little-endian 16-bit value of two bytes. *)
Definition u16 (lo hi : byte) : nat := byte_val lo + 256 * byte_val hi.

(** [struct.unpack('<H', s)[0]]: raises [struct.error] unless [s] holds
    exactly two bytes.  [None] stands for the raised exception. *)
Definition unpack_H (s : bytes) : option nat :=
  match s with
  | [lo; hi] => Some (u16 lo hi)
  | _ => None
  end.

(** A Python [str], as the list of its code points. *)
Definition str := list nat.

(** [chr(c)]: a one-character string; raises [ValueError] outside
    [range(0x110000)]. *)
Definition chr (c : nat) : option str :=
  if (N.of_nat c <? 0x110000)%N then Some [c] else None.

(** ** [byte2str] *)

(** The [while i < length] loop of [byte2str].  The body of the [try] is
    the unpack followed by [chr]; when either raises, the bare [except]
    only does [i += 2]. *)
Fixpoint byte2str_loop (fuel : nat) (data : bytes) (i : nat) (ret : str)
  : option str :=
  match fuel with
  | 0 => None
  | S fuel =>
      if decide (i < length data) then
        match unpack_H (slice data i (i + 2)) ≫= chr with
        | Some ch => byte2str_loop fuel data (i + 2) (ret ++ ch)
        | None => byte2str_loop fuel data (i + 2) ret
        end
      else Some ret
  end.

Definition byte2str (data : bytes) : option str :=
  byte2str_loop (S (length data)) data 0 [].

(** The 16-bit little-endian code units of a byte span, two bytes at a
    time; a last single byte gives nothing.  Used to describe what
    [byte2str] returns. *)
Fixpoint code_units (data : bytes) : list nat :=
  match data with
  | lo :: hi :: rest => u16 lo hi :: code_units rest
  | _ => []
  end.

(** ** Local variables, exceptions and the execution monad *)

(** One decoded entry: the tuple [(word, pinyin, freq)]. *)
Definition entry : Type := str * str * nat.

(** The local variables of [parse_scel] that its two loops assign.  The
    source uses the one variable [pos] for both loops. *)
Record locals := Locals {
  pos : nat;
  py_table : gmap nat str;
  py_count : nat;
  entries : list entry;
  entry_count : nat;
  error_count : nat
}.

Definition set_pos (p : nat) (s : locals) : locals :=
  Locals p (py_table s) (py_count s) (entries s) (entry_count s)
         (error_count s).

Definition set_py_table (t : gmap nat str) (s : locals) : locals :=
  Locals (pos s) t (py_count s) (entries s) (entry_count s) (error_count s).

Definition set_py_count (n : nat) (s : locals) : locals :=
  Locals (pos s) (py_table s) n (entries s) (entry_count s) (error_count s).

Definition set_entries (l : list entry) (s : locals) : locals :=
  Locals (pos s) (py_table s) (py_count s) l (entry_count s) (error_count s).

Definition set_entry_count (n : nat) (s : locals) : locals :=
  Locals (pos s) (py_table s) (py_count s) (entries s) n (error_count s).

Definition set_error_count (n : nat) (s : locals) : locals :=
  Locals (pos s) (py_table s) (py_count s) (entries s) (entry_count s) n.

(** What running a piece of code gives: a value, a raised exception, or
    no answer within the fuel.  The locals are kept in the first two
    cases: a handler sees the assignments made before the exception. *)
Inductive outcome (A : Type) : Type :=
  | Ok (a : A) (s : locals)
  | Raised (s : locals)
  | NoFuel.
Arguments Ok {A} a s.
Arguments Raised {A} s.
Arguments NoFuel {A}.

Definition exec (A : Type) : Type := locals → outcome A.

#[global] Instance exec_ret : MRet exec := λ A a s, Ok a s.

#[global] Instance exec_bind : MBind exec := λ A B f m s,
  match m s with
  | Ok a s' => f a s'
  | Raised s' => Raised s'
  | NoFuel => NoFuel
  end.

(** [struct.unpack('<H', data[pos:pos+2])[0]] at the current [pos]. *)
Definition unpack_at (data : bytes) : exec nat := λ s,
  match unpack_H (slice data (pos s) (pos s + 2)) with
  | Some v => Ok v s
  | None => Raised s
  end.

(** [pos += n] *)
Definition advance (n : nat) : exec unit := λ s,
  Ok () (set_pos (pos s + n) s).

(** [byte2str(data[pos:pos+n])] at the current [pos]. *)
Definition byte2str_at (data : bytes) (n : nat) : exec str := λ s,
  match byte2str (slice data (pos s) (pos s + n)) with
  | Some r => Ok r s
  | None => NoFuel
  end.

(** Both table loops of [parse_scel] have the one shape
    [while pos < length: try: body except Exception: handler; if pos >=
    length: break].  [len] is the local [length]; the handler is the
    assignments of the [except] branch before its [if]. *)
Fixpoint scan_loop (body : exec unit) (handler : locals → locals)
    (len fuel : nat) : exec unit := λ s,
  match fuel with
  | 0 => NoFuel
  | S fuel =>
      if decide (pos s < len) then
        match body s with
        | Ok _ s' => scan_loop body handler len fuel s'
        | Raised s' =>
            let s'' := handler s' in
            if decide (len ≤ pos s'') then Ok () s''
            else scan_loop body handler len fuel s''
        | NoFuel => NoFuel
        end
      else Ok () s
  end.

(** ** The pinyin table loop of [parse_scel] *)

(** [py_table[index] = py_str] *)
Definition store_pinyin (index : nat) (py_str : str) : exec unit := λ s,
  Ok () (set_py_table (<[index := py_str]> (py_table s)) s).

(** [py_count += 1] *)
Definition incr_py_count : exec unit := λ s,
  Ok () (set_py_count (py_count s + 1) s).

(** The body of the [try] in the pinyin loop. *)
Definition py_record (py_data : bytes) : exec unit :=
  index ← unpack_at py_data;
  advance 2;;
  py_len ← unpack_at py_data;
  advance 2;;
  py_str ← byte2str_at py_data py_len;
  advance py_len;;
  store_pinyin index py_str;;
  incr_py_count.

(** The handler of the pinyin loop: [pos += 1]. *)
Definition py_fault (s : locals) : locals := set_pos (pos s + 1) s.

(** The pinyin loop: [scan_loop] over [py_record]. *)
Definition py_loop (fuel : nat) (py_data : bytes) : exec unit :=
  scan_loop (py_record py_data) py_fault (length py_data) fuel.

(** ** The word table loop of [parse_scel] *)

(** [for _ in range(n): py_index = unpack(...); py_indices.append(py_index);
    pos += 2] *)
Fixpoint read_indices (data : bytes) (n : nat) (py_indices : list nat)
  : exec (list nat) :=
  match n with
  | 0 => mret py_indices
  | S n =>
      py_index ← unpack_at data;
      advance 2;;
      read_indices data n (py_indices ++ [py_index])
  end.

(** [for index in py_indices: if index in py_table:
    pinyin_parts.append(py_table[index])] *)
Definition resolve (table : gmap nat str) (py_indices : list nat)
  : list str :=
  omap (λ index, table !! index) py_indices.

(** [sep.join(parts)] *)
Fixpoint join (sep : str) (parts : list str) : str :=
  match parts with
  | [] => []
  | p :: rest =>
      match rest with
      | [] => p
      | _ :: _ => p ++ sep ++ join sep rest
      end
  end.

(** The string [' ']. *)
Definition space : str := [32].

(** [entries.append(e); entry_count += 1] *)
Definition append_entry (e : entry) : exec unit := λ s,
  Ok () (set_entry_count (entry_count s + 1)
           (set_entries (entries s ++ [e]) s)).

(** [word and 1 <= len(word) <= 8] *)
Definition word_ok (word : str) : bool :=
  bool_decide (word ≠ []) && bool_decide (1 ≤ length word ≤ 8).

(** [for _ in range(n):] one word record per round. *)
Fixpoint read_words (data : bytes) (pinyin : str) (n : nat) : exec unit :=
  match n with
  | 0 => mret ()
  | S n =>
      word_len ← unpack_at data;
      advance 2;;
      word ← byte2str_at data word_len;
      advance word_len;;
      ext_len ← unpack_at data;
      advance 2;;
      freq ← unpack_at data;
      advance ext_len;;
      (if word_ok word then append_entry (word, pinyin, freq) else mret ());;
      read_words data pinyin n
  end.

(** The body of the [try] in the word loop; the [continue] of the
    skipped group ends the body. *)
Definition word_group (chinese_data : bytes) : exec unit :=
  same_count ← unpack_at chinese_data;
  advance 2;;
  py_table_len ← unpack_at chinese_data;
  advance 2;;
  py_indices ← read_indices chinese_data (py_table_len / 2) [];
  pinyin_parts ← (λ s, Ok (resolve (py_table s) py_indices) s);
  match pinyin_parts with
  | [] => advance (same_count * (4 + 10))
  | _ :: _ =>
      let pinyin := join space pinyin_parts in
      read_words chinese_data pinyin same_count
  end.

(** The handler of the word loop: [error_count += 1; pos += 1]. *)
Definition word_fault (s : locals) : locals :=
  set_pos (pos s + 1) (set_error_count (error_count s + 1) s).

(** The word loop: [scan_loop] over [word_group]. *)
Definition word_loop (fuel : nat) (chinese_data : bytes) : exec unit :=
  scan_loop (word_group chinese_data) word_fault (length chinese_data) fuel.

(** ** [parse_scel] *)

Definition magic : bytes :=
  [x40; x15; x00; x00; x44; x43; x53; x01; x01; x00; x00; x00].

Definition start_py : nat := N.to_nat 0x1540.
Definition start_chinese : nat := N.to_nat 0x2628.

(** The locals at their first assignments. *)
Definition init_locals : locals := Locals 0 ∅ 0 [] 0 0.

(** The pinyin table decoder on its sub-buffer, from [pos = 0]. *)
Definition parse_pinyin (py_data : bytes) : exec unit := λ s,
  py_loop (S (length py_data)) py_data (set_pos 0 s).

(** The word table decoder on its sub-buffer, from [pos = 0]. *)
Definition parse_words (chinese_data : bytes) : exec unit := λ s,
  word_loop (S (length chinese_data)) chinese_data (set_pos 0 s).

(** The two table loops, one after the other, on the whole buffer. *)
Definition parse_tables (data : bytes) : exec unit :=
  parse_pinyin (drop start_py data);;
  parse_words (drop start_chinese data).

(** [parse_scel], from the bytes of the file: [None] when the magic
    check fails, else the entries.  The final locals are kept so that the
    printed counts can be read off. *)
Definition parse_scel (data : bytes) : outcome (option (list entry)) :=
  if decide (take 12 data = magic) then
    match parse_tables data init_locals with
    | Ok _ s => Ok (Some (entries s)) s
    | Raised s => Raised s
    | NoFuel => NoFuel
    end
  else Ok None init_locals.

(** ** The filter and the sort of [generate_rime_yaml] *)

Definition word_of (e : entry) : str := e.1.1.
Definition pinyin_of (e : entry) : str := e.1.2.
Definition freq_of (e : entry) : nat := e.2.

(** [freq >= min_freq and min_length <= len(word) <= max_length] *)
Definition keeps (min_freq min_length max_length : Z) (e : entry) : Prop :=
  (min_freq ≤ Z.of_nat (freq_of e) ∧
   min_length ≤ Z.of_nat (length (word_of e)) ≤ max_length)%Z.

#[global] Instance keeps_dec min_freq min_length max_length e :
  Decision (keeps min_freq min_length max_length e).
Proof. unfold keeps. apply _. Defined.

(** The loop that builds [filtered_entries]. *)
Definition filter_entries (min_freq min_length max_length : Z)
    (l : list entry) : list entry :=
  filter (keeps min_freq min_length max_length) l.

(** [list.sort(key=..., reverse=True)].  Python's sort is stable, also
    under [reverse=True]: the result is in decreasing key order and
    elements with equal keys keep the order they had.  It is modelled by
    the stable insertion sort: an element is put in front of the first
    element whose key is not larger. *)
Fixpoint insert_desc {A} (key : A → nat) (x : A) (l : list A) : list A :=
  match l with
  | [] => [x]
  | y :: l' =>
      if decide (key y ≤ key x) then x :: y :: l'
      else y :: insert_desc key x l'
  end.

Definition sort_desc {A} (key : A → nat) (l : list A) : list A :=
  foldr (insert_desc key) [] l.

(** The list [filtered_entries] of [generate_rime_yaml] after its sort
    (lines 160 to 168): the entries that pass the filter, sorted by
    [x[2]], decreasing.  It is the list whose length the header reports
    and that the write loop goes through; the writing itself (the file,
    its encoding, the value returned) is not part of this definition. *)
Definition generate_rime_yaml (l : list entry)
    (min_freq min_length max_length : Z) : list entry :=
  sort_desc freq_of (filter_entries min_freq min_length max_length l).

(** ** Vocabulary of the statements *)

(** The locals after a pinyin record has been read and stored. *)
Definition recorded (index py_len : nat) (py_str : str) (s : locals)
  : locals :=
  Locals (pos s + 4 + py_len) (<[index := py_str]> (py_table s))
         (py_count s + 1) (entries s) (entry_count s) (error_count s).

(** What the pinyin loop keeps: keys are never removed, the count never
    drops, the cursor never moves back and the locals of the word loop are
    not touched. *)
Definition py_keeps (s s' : locals) : Prop :=
  dom (py_table s) ⊆ dom (py_table s') ∧
  py_count s ≤ py_count s' ∧
  entries s' = entries s ∧
  entry_count s' = entry_count s ∧
  error_count s' = error_count s.

(** [triple I R m]: from locals that satisfy [I], the code [m] ends with
    a value or an exception, and [R] relates the locals before and after
    it. *)
Definition triple {A} (I : locals → Prop) (R : relation locals)
    (m : exec A) : Prop :=
  ∀ s, I s →
       match m s with
       | Ok _ s' => R s s'
       | Raised s' => R s s'
       | NoFuel => False
       end.

(** The pinyin of an entry comes from a group of which at least one
    index is in the mapping [table]. *)
Definition resolved (table : gmap nat str) (e : entry) : Prop :=
  ∃ py_indices,
    resolve table py_indices ≠ [] ∧
    pinyin_of e = join space (resolve table py_indices).

(** What the word loop keeps while the mapping is [table]: the cursor
    never moves back, the mapping and the pinyin count are not touched,
    and [entries] only grows, by entries that are [resolved]. *)
Definition word_keeps (table : gmap nat str) (s s' : locals) : Prop :=
  pos s ≤ pos s' ∧
  py_table s' = py_table s ∧
  py_count s' = py_count s ∧
  error_count s ≤ error_count s' ∧
  ∃ new, entries s' = entries s ++ new ∧
         entry_count s' = entry_count s + length new ∧
         Forall (resolved table) new.

(** The indices of the group that starts at offset [p]: after the four
    bytes of [same_count] and of the length [c d] of the index table, the
    [u16 c d // 2] indices that the round reads.  [None] when the header
    or the index table does not lie within the buffer: the round at [p]
    then raises before it has its indices. *)
Definition group_indices (data : bytes) (p : nat) : option (list nat) :=
  match drop p data with
  | _ :: _ :: c :: d :: rest =>
      if decide (2 * (u16 c d / 2) ≤ length rest)
      then Some (code_units (take (2 * (u16 c d / 2)) rest))
      else None
  | _ => None
  end.

(** The entry [e] comes from the group at offset [p]: at least one of the
    indices of that group is in the mapping, and the pinyin of [e] is the
    single-space join of the strings found for them. *)
Definition from_group (data : bytes) (table : gmap nat str) (p : nat)
    (e : entry) : Prop :=
  ∃ py_indices,
    group_indices data p = Some py_indices ∧
    resolve table py_indices ≠ [] ∧
    pinyin_of e = join space (resolve table py_indices).

(** One round of the word loop, from the locals [s] to [s1]: the mapping
    is not touched, and every entry the round appends comes from the group
    at the cursor of [s]. *)
Definition round_adds (data : bytes) (s s1 : locals) : Prop :=
  py_table s1 = py_table s ∧
  ∃ new, entries s1 = entries s ++ new ∧
         Forall (from_group data (py_table s) (pos s)) new.

(** The whole word loop: the mapping is not touched, and every entry
    appended comes from a group of the buffer. *)
Definition run_adds (data : bytes) (s s' : locals) : Prop :=
  py_table s' = py_table s ∧
  ∃ new, entries s' = entries s ++ new ∧
         Forall (λ e, ∃ p, from_group data (py_table s) p e) new.

(** What a run of word records keeps when every tuple it may append
    satisfies [P]. *)
Definition adds_with (P : entry → Prop) (s s' : locals) : Prop :=
  pos s ≤ pos s' ∧
  py_table s' = py_table s ∧
  ∃ new, entries s' = entries s ++ new ∧ Forall P new.

(** What the whole word loop keeps, from the locals it starts with. *)
Definition word_run (s s' : locals) : Prop := word_keeps (py_table s) s s'.

(** A buffer on which an entry gets an empty pinyin: the magic, zero bytes up to
    the word table, and one group there: [same_count = 1], one index, 0,
    the word ["A"], and an extension block that holds the frequency 5. *)
Definition empty_pinyin_file : bytes :=
  magic ++ repeat x00 (start_chinese - 12) ++
  [x01; x00; x02; x00; x00; x00; x02; x00; x41; x00; x02; x00; x05; x00].

(** Decreasing frequency, from one row to the next. *)
Definition freq_desc (e1 e2 : entry) : Prop := freq_of e2 ≤ freq_of e1.

(** ** Records as they lie in the buffer *)

(** A pinyin record: the two bytes of the index, the two bytes of the
    length, and the text. *)
Record py_rec := PyRec {
  pr_index : byte * byte;
  pr_len : byte * byte;
  pr_text : bytes
}.

Definition py_rec_bytes (r : py_rec) : bytes :=
  [(pr_index r).1; (pr_index r).2; (pr_len r).1; (pr_len r).2] ++ pr_text r.

(** The length field says how long the text is. *)
Definition py_rec_wf (r : py_rec) : Prop :=
  length (pr_text r) = u16 (pr_len r).1 (pr_len r).2.

(** [py_table[index] = py_str] for the record [r]. *)
Definition store_rec (table : gmap nat str) (r : py_rec) : gmap nat str :=
  <[u16 (pr_index r).1 (pr_index r).2 := code_units (pr_text r)]> table.

(** A word record: the length of the word, the word, the length of the
    extension block, and the block: its first two bytes, the frequency,
    and the bytes after them. *)
Record word_rec := WordRec {
  wr_len : byte * byte;
  wr_text : bytes;
  wr_ext_len : byte * byte;
  wr_freq : byte * byte;
  wr_ext : bytes
}.

Definition word_rec_bytes (r : word_rec) : bytes :=
  [(wr_len r).1; (wr_len r).2] ++ wr_text r ++
  [(wr_ext_len r).1; (wr_ext_len r).2; (wr_freq r).1; (wr_freq r).2] ++
  wr_ext r.

(** The two length fields say how long the word and the block are. *)
Definition word_rec_wf (r : word_rec) : Prop :=
  length (wr_text r) = u16 (wr_len r).1 (wr_len r).2 ∧
  2 + length (wr_ext r) = u16 (wr_ext_len r).1 (wr_ext_len r).2.

(** The tuple that the record stands for, under the pinyin of its
    group. *)
Definition word_rec_entry (pinyin : str) (r : word_rec) : entry :=
  (code_units (wr_text r), pinyin, u16 (wr_freq r).1 (wr_freq r).2).

(** The locals after one word record: the cursor has moved by [adv], and
    the tuple is appended when the word passes [word_ok]. *)
Definition word_read (word pinyin : str) (freq adv : nat) (s : locals)
  : locals :=
  Locals (pos s + adv) (py_table s) (py_count s)
    (if word_ok word then entries s ++ [(word, pinyin, freq)] else entries s)
    (if word_ok word then entry_count s + 1 else entry_count s)
    (error_count s).

(** The tuples appended for a run of word records. *)
Definition kept_entries (pinyin : str) (rs : list word_rec) : list entry :=
  filter (λ e, word_ok (word_of e) = true) (word_rec_entry pinyin <$> rs).

(** ** More vocabulary: what a [try] body returns, and what the loops
    keep *)

(** As [triple], with [Q] for the value returned. *)
Definition triple_val {A} (I : locals → Prop) (R : relation locals)
    (Q : A → Prop) (m : exec A) : Prop :=
  ∀ s, I s →
       match m s with
       | Ok a s' => R s s' ∧ Q a
       | Raised s' => R s s'
       | NoFuel => False
       end.

(** An entry as the word loop can append it: a word of one to eight
    characters, each a 16-bit unit, and a 16-bit frequency. *)
Definition entry_ok (e : entry) : Prop :=
  1 ≤ length (word_of e) ≤ 8 ∧
  Forall (λ c, c < 256 * 256) (word_of e) ∧
  freq_of e < 256 * 256.

(** What the body of the word loop keeps: only the cursor, [entries] and
    [entry_count] change, the count by the number of tuples appended. *)
Definition word_adds (s s' : locals) : Prop :=
  pos s ≤ pos s' ∧
  py_table s' = py_table s ∧
  py_count s' = py_count s ∧
  error_count s' = error_count s ∧
  ∃ new, entries s' = entries s ++ new ∧
         entry_count s' = entry_count s + length new ∧
         Forall entry_ok new.

(** What the word loop on [len] bytes keeps: as [word_adds], but
    [error_count] may grow, by no more than the cursor moves within the
    [len] bytes. *)
Definition word_scans (len : nat) (s s' : locals) : Prop :=
  pos s ≤ pos s' ∧
  py_table s' = py_table s ∧
  py_count s' = py_count s ∧
  error_count s ≤ error_count s' ∧
  error_count s' + (len - pos s') ≤ error_count s + (len - pos s) ∧
  ∃ new, entries s' = entries s ++ new ∧
         entry_count s' = entry_count s + length new ∧
         Forall entry_ok new.

(** What the pinyin loop on [len] bytes keeps about its count: it grows
    at least as fast as the number of keys, and by one for every four
    bytes the cursor moves within the [len] bytes, or fewer. *)
Definition py_counts (len : nat) (s s' : locals) : Prop :=
  size (py_table s') + py_count s ≤ py_count s' + size (py_table s) ∧
  4 * py_count s' + (len - pos s') ≤ 4 * py_count s + (len - pos s).

(** ** [main] *)

(** [s.endswith(suffix)] *)
Definition endswith (s suffix : str) : bool :=
  bool_decide (suffix `suffix_of` s).

(** The string ['.scel']. *)
Definition dot_scel : str := [46; 115; 99; 101; 108].

(** How [main] ends once [parse_args] has returned: by [sys.exit(code)];
    by an exception that nothing catches, which [open] or [read] raise in
    [parse_scel] outside any [try]; or by returning, after the call of
    [generate_rime_yaml], of which the sorted filtered list is kept, or
    after the message that the input could not be parsed. *)
Inductive main_end : Type :=
  | SysExit (code : nat)
  | Uncaught
  | Generated (rows : list entry)
  | NotParsed.

(** [main] after [parser.parse_args()] has returned (the exits of
    [argparse] itself, on [-h] or on a bad option, come before), from what
    [argparse] and the file system give it: the two positional arguments
    ([None] when absent), the three thresholds, whether
    [os.path.exists(input_file)] holds, and what opening and reading the
    input file gives: its bytes, or [None] when [open] or [read] raises.
    The prints are left out, so the warning about the name of the output
    file and the two branches on the result of [generate_rime_yaml], which
    only print, do not show.  The outer [None] stands for [parse_scel] not
    returning. *)
Definition main (input_file output_file : option str)
    (freq min_length max_length : Z) (file_exists : bool)
    (content : option bytes)
  : option main_end :=
  match input_file, output_file with
  | Some input_file, Some output_file =>
      if bool_decide (input_file = []) || bool_decide (output_file = [])
      then Some (SysExit 1)
      else if negb file_exists then Some (SysExit 1)
      else if negb (endswith input_file dot_scel) then Some (SysExit 1)
      else
        match content with
        | None => Some Uncaught
        | Some data =>
            match parse_scel data with
            | Ok (Some (e :: l)) _ =>
                Some (Generated
                        (generate_rime_yaml (e :: l) freq min_length
                           max_length))
            | Ok _ _ => Some NotParsed
            | _ => None
            end
        end
  | _, _ => Some (SysExit 1)
  end.

(** The checks of [main] before the file is read. *)
Definition args_ok (input_file output_file : option str)
    (file_exists : bool) : Prop :=
  ∃ i o, input_file = Some i ∧ output_file = Some o ∧
         i ≠ [] ∧ o ≠ [] ∧ file_exists = true ∧
         dot_scel `suffix_of` i.

(** ** Facts about bytes and slices *)

Lemma byte_val_lt (b : byte) : byte_val b < 256.
Proof.
  unfold byte_val. pose proof (Byte.to_N_bounded b). lia.
Qed.

Lemma u16_lt lo hi : u16 lo hi < 256 * 256.
Proof.
  unfold u16. pose proof (byte_val_lt lo). pose proof (byte_val_lt hi). lia.
Qed.

Lemma unpack_H_pair lo hi : unpack_H [lo; hi] = Some (u16 lo hi).
Proof. reflexivity. Qed.

Lemma unpack_H_Some s v :
  unpack_H s = Some v →
  ∃ lo hi, s = [lo; hi] ∧ v = u16 lo hi.
Proof.
  destruct s as [|lo [|hi [|? ?]]]; simpl; intros H; try discriminate.
  injection H as <-. eauto.
Qed.

Lemma unpack_H_lt s v : unpack_H s = Some v → v < 256 * 256.
Proof.
  intros (lo & hi & _ & ->)%unpack_H_Some. apply u16_lt.
Qed.

Lemma chr_u16 c : c < 256 * 256 → chr c = Some [c].
Proof.
  intros Hc. unfold chr.
  destruct (N.ltb_spec (N.of_nat c) 0x110000) as [_|Hge]; [done|]. lia.
Qed.

Lemma slice_length data i j :
  length (slice data i j) = (j - i) `min` (length data - i).
Proof. unfold slice. rewrite length_take, length_drop. done. Qed.

(** Reading a u16 at [i] succeeds exactly when two bytes are left. *)
Lemma unpack_slice_Some data i :
  i + 2 ≤ length data →
  ∃ lo hi, slice data i (i + 2) = [lo; hi] ∧
           data !! i = Some lo ∧ data !! (i + 1) = Some hi.
Proof.
  intros Hlen. unfold slice. replace (i + 2 - i) with 2 by lia.
  destruct (drop i data) as [|lo [|hi rest]] eqn:Hd.
  - apply (f_equal length) in Hd. rewrite length_drop in Hd. simpl in Hd. lia.
  - apply (f_equal length) in Hd. rewrite length_drop in Hd. simpl in Hd. lia.
  - exists lo, hi. split; [done|].
    rewrite <- (Nat.add_0_r i) at 1.
    rewrite <- !lookup_drop, Hd. done.
Qed.

Lemma unpack_slice_None data i :
  length data < i + 2 → unpack_H (slice data i (i + 2)) = None.
Proof.
  intros Hlen.
  destruct (unpack_H (slice data i (i + 2))) as [v|] eqn:Hu; [|done].
  apply unpack_H_Some in Hu as (lo & hi & Hs & _).
  apply (f_equal length) in Hs. rewrite slice_length in Hs. simpl in Hs. lia.
Qed.

(** ** [byte2str] returns the code units of its argument *)

Lemma code_units_length data : length (code_units data) = length data / 2.
Proof.
  induction data as [data IH] using (induction_ltof1 _ (@length byte)).
  unfold ltof in IH.
  destruct data as [|lo [|hi rest]]; [done..|].
  cbn [code_units length]. rewrite IH by (simpl; lia).
  change (S (S (length rest))) with (2 + length rest).
  replace (2 + length rest) with (length rest + 1 * 2) by lia.
  rewrite Nat.div_add by lia. lia.
Qed.

Lemma code_units_snoc_even data b :
  Nat.Even (length data) → code_units (data ++ [b]) = code_units data.
Proof.
  induction data as [data IH] using (induction_ltof1 _ (@length byte)).
  unfold ltof in IH. intros Hev.
  destruct data as [|lo [|hi rest]]; [done| |].
  - destruct Hev as [k Hk]. simpl in Hk. lia.
  - cbn [app code_units]. f_equal. apply IH; [simpl; lia|].
    destruct Hev as [k Hk]. exists (k - 1). simpl in Hk. lia.
Qed.

Lemma code_units_lt data c : c ∈ code_units data → c < 256 * 256.
Proof.
  induction data as [data IH] using (induction_ltof1 _ (@length byte)).
  unfold ltof in IH.
  destruct data as [|lo [|hi rest]]; cbn [code_units];
    [by intros ?%elem_of_nil..|].
  intros [->|Hin]%elem_of_cons.
  - apply u16_lt.
  - apply (IH rest); [simpl; lia|done].
Qed.

Lemma byte2str_loop_spec fuel data i ret :
  length data - i < fuel →
  byte2str_loop fuel data i ret = Some (ret ++ code_units (drop i data)).
Proof.
  revert i ret. induction fuel as [|fuel IH]; intros i ret Hfuel; [lia|].
  cbn [byte2str_loop]. destruct (decide (i < length data)) as [Hlt|Hge].
  - destruct (drop i data) as [|lo [|hi rest]] eqn:Hd.
    + apply (f_equal length) in Hd. rewrite length_drop in Hd. simpl in Hd. lia.
    + assert (length data = i + 1) as Hlen.
      { apply (f_equal length) in Hd. rewrite length_drop in Hd.
        simpl in Hd. lia. }
      rewrite unpack_slice_None by lia. cbn [mbind option_bind].
      rewrite IH by lia. rewrite drop_ge by lia. done.
    + assert (slice data i (i + 2) = [lo; hi]) as ->.
      { unfold slice. replace (i + 2 - i) with 2 by lia. by rewrite Hd. }
      rewrite unpack_H_pair. cbn [mbind option_bind].
      rewrite chr_u16 by apply u16_lt.
      rewrite IH by lia.
      assert (drop (i + 2) data = rest) as ->.
      { rewrite <- drop_drop, Hd. done. }
      cbn [code_units]. by rewrite <- app_assoc.
  - rewrite drop_ge by lia. by rewrite app_nil_r.
Qed.

Lemma byte2str_spec data : byte2str data = Some (code_units data).
Proof.
  unfold byte2str. rewrite byte2str_loop_spec by lia. by rewrite drop_0.
Qed.

(** C7: [byte2str] is total: on every byte sequence the loop ends (the
    fuel it is given is enough) and a string is returned; no exception
    leaves it, as both the unpack and [chr] sit inside the [try].  A last
    single byte after complete two-byte units adds no character. *)
Theorem byte2str_total (data : bytes) :
  (∃ s, byte2str data = Some s) ∧
  (∀ b, Nat.Even (length data) → byte2str (data ++ [b]) = byte2str data).
Proof.
  split.
  - exists (code_units data). apply byte2str_spec.
  - intros b Hev. rewrite !byte2str_spec. f_equal.
    by apply code_units_snoc_even.
Qed.

Lemma byte2str_total_witness :
  (∃ s, byte2str [x6e; x00; x69; x00] = Some s) ∧
  byte2str ([x6e; x00; x69; x00] ++ [x01]) = byte2str [x6e; x00; x69; x00].
Proof.
  destruct (byte2str_total [x6e; x00; x69; x00]) as [Hex Hodd].
  split; [exact Hex|]. apply Hodd. exists 2. reflexivity.
Defined.

(** C9: the string returned for [n] bytes has [n / 2] characters: it is
    the list of the little-endian 16-bit units, one character each
    (surrogate values included, [chr] accepts them), and nothing for a
    last odd byte. *)
Theorem byte2str_length (data : bytes) :
  ∃ s, byte2str data = Some s ∧
       s = code_units data ∧
       length s = length data / 2.
Proof.
  exists (code_units data).
  split; [apply byte2str_spec|]. split; [done|]. apply code_units_length.
Qed.

(** ** The execution monad *)

Lemma exec_bind_unfold {A B} (m : exec A) (f : A → exec B) s :
  (m ≫= f) s =
  match m s with
  | Ok a s' => f a s'
  | Raised s' => Raised s'
  | NoFuel => NoFuel
  end.
Proof. reflexivity. Qed.

Lemma drop_cons_length {A} (l : list A) p x rest :
  drop p l = x :: rest → p < length l.
Proof.
  intros Hd. apply (f_equal length) in Hd. rewrite length_drop in Hd.
  simpl in Hd. lia.
Qed.

Lemma slice_drop data p n : slice data p (p + n) = take n (drop p data).
Proof. unfold slice. by replace (p + n - p) with n by lia. Qed.

Lemma unpack_at_drop data s lo hi rest :
  drop (pos s) data = lo :: hi :: rest →
  unpack_at data s = Ok (u16 lo hi) s.
Proof. intros Hd. unfold unpack_at. by rewrite slice_drop, Hd. Qed.

Lemma unpack_at_short data s :
  length data < pos s + 2 → unpack_at data s = Raised s.
Proof. intros Hlen. unfold unpack_at. by rewrite unpack_slice_None. Qed.

Lemma unpack_at_cases data s :
  (∃ v, unpack_at data s = Ok v s ∧ pos s + 2 ≤ length data) ∨
  (unpack_at data s = Raised s ∧ length data < pos s + 2).
Proof.
  destruct (decide (pos s + 2 ≤ length data)) as [Hle|Hgt].
  - left. destruct (unpack_slice_Some data (pos s) Hle) as (lo & hi & Hs & _).
    exists (u16 lo hi). unfold unpack_at. by rewrite Hs.
  - right. split; [apply unpack_at_short|]; lia.
Qed.

Lemma byte2str_at_spec data n s :
  byte2str_at data n s = Ok (code_units (take n (drop (pos s) data))) s.
Proof. unfold byte2str_at. by rewrite byte2str_spec, slice_drop. Qed.

(** ** One pinyin record *)

(** With four header bytes at the cursor the record is stored, whatever
    is left for its text. *)
Lemma py_record_ok py_data s a b c d rest :
  drop (pos s) py_data = a :: b :: c :: d :: rest →
  py_record py_data s =
  Ok () (recorded (u16 a b) (u16 c d) (code_units (take (u16 c d) rest)) s).
Proof.
  intros Hd. unfold py_record.
  rewrite exec_bind_unfold, (unpack_at_drop _ _ _ _ _ Hd).
  rewrite exec_bind_unfold. cbn [advance].
  rewrite exec_bind_unfold.
  rewrite (unpack_at_drop _ _ c d rest)
    by (cbn [pos set_pos]; by rewrite <- drop_drop, Hd).
  rewrite exec_bind_unfold. cbn [advance pos set_pos].
  rewrite exec_bind_unfold, byte2str_at_spec. cbn [pos set_pos].
  replace (drop (pos s + 2 + 2) py_data) with rest
    by (by rewrite <- !drop_drop, Hd).
  rewrite exec_bind_unfold. cbn [advance pos set_pos].
  rewrite exec_bind_unfold. cbn [store_pinyin].
  unfold incr_py_count, recorded, set_py_count, set_py_table, set_pos.
  cbn. do 2 f_equal. lia.
Qed.

(** Fewer than two bytes at the cursor: the index read raises and the
    cursor has not moved. *)
Lemma py_record_short_index py_data s :
  length py_data < pos s + 2 → py_record py_data s = Raised s.
Proof.
  intros Hlen. unfold py_record.
  by rewrite exec_bind_unfold, unpack_at_short.
Qed.

(** Two or three bytes at the cursor: the length read raises after the
    cursor has moved past the index. *)
Lemma py_record_short_len py_data s :
  pos s + 2 ≤ length py_data → length py_data < pos s + 4 →
  py_record py_data s = Raised (set_pos (pos s + 2) s).
Proof.
  intros Hle Hlt. unfold py_record. rewrite exec_bind_unfold.
  destruct (unpack_at_cases py_data s) as [(v & -> & _)|[_ ?]]; [|lia].
  rewrite exec_bind_unfold. cbn [advance].
  rewrite exec_bind_unfold, unpack_at_short; [done|]. cbn [pos set_pos]. lia.
Qed.

Lemma drop_four (data : bytes) p :
  p + 4 ≤ length data →
  ∃ a b c d rest, drop p data = a :: b :: c :: d :: rest.
Proof.
  intros Hlen. pose proof (length_drop data p) as Hl.
  destruct (drop p data) as [|a [|b [|c [|d rest]]]]; simpl in Hl; try lia.
  by exists a, b, c, d, rest.
Qed.

(** ** The scan loop *)

Lemma scan_loop_exit body handler len fuel s :
  len ≤ pos s → scan_loop body handler len (S fuel) s = Ok () s.
Proof.
  intros Hle. cbn [scan_loop]. destruct (decide (pos s < len)); [lia|done].
Qed.

Lemma scan_loop_next body handler len fuel s s' :
  pos s < len → body s = Ok () s' →
  scan_loop body handler len (S fuel) s = scan_loop body handler len fuel s'.
Proof.
  intros Hlt Hb. cbn [scan_loop].
  destruct (decide (pos s < len)); [|lia]. by rewrite Hb.
Qed.

Lemma scan_loop_fault body handler len fuel s s' :
  pos s < len → body s = Raised s' →
  scan_loop body handler len (S fuel) s =
  if decide (len ≤ pos (handler s')) then Ok () (handler s')
  else scan_loop body handler len fuel (handler s').
Proof.
  intros Hlt Hb. cbn [scan_loop].
  destruct (decide (pos s < len)); [|lia]. by rewrite Hb.
Qed.

(** The loop rule.  When every round moves the cursor forward and keeps
    a preorder [R] between the locals before and after it, the loop ends
    within [len - pos + 1] rounds, with the cursor at or past [len] and
    [R] between the first and the last locals. *)
Lemma scan_loop_inv (R : relation locals) `{!PreOrder R} body handler len :
  (∀ s, pos s < len →
        match body s with
        | Ok _ s' => R s s' ∧ pos s < pos s'
        | Raised s' => R s (handler s') ∧ pos s < pos (handler s')
        | NoFuel => False
        end) →
  ∀ fuel s, len - pos s < fuel →
    ∃ s', scan_loop body handler len fuel s = Ok () s' ∧
          R s s' ∧ len ≤ pos s'.
Proof.
  intros Hbody fuel. induction fuel as [|fuel IH]; intros s Hfuel; [lia|].
  cbn [scan_loop]. destruct (decide (pos s < len)) as [Hlt|Hge].
  - specialize (Hbody s Hlt).
    destruct (body s) as [[] s1|s1|]; [| |done].
    + destruct Hbody as [HR Hpos].
      destruct (IH s1) as (s' & Hrun & HR' & Hend); [lia|].
      exists s'. split; [done|]. split; [by etrans|done].
    + destruct Hbody as [HR Hpos]. cbn zeta.
      destruct (decide (len ≤ pos (handler s1))) as [Hstop|Hgo].
      * exists (handler s1). done.
      * destruct (IH (handler s1)) as (s' & Hrun & HR' & Hend); [lia|].
        exists s'. split; [done|]. split; [by etrans|done].
  - exists s. split; [done|]. split; [reflexivity|lia].
Qed.

(** ** The pinyin loop *)

#[global] Instance py_keeps_preorder : PreOrder py_keeps.
Proof.
  split.
  - intros s. by repeat split.
  - intros s1 s2 s3 (Hd1 & Hc1 & He1 & Hn1 & Hr1) (Hd2 & Hc2 & He2 & Hn2 & Hr2).
    repeat split; [set_solver|lia|congruence..].
Qed.

Lemma py_keeps_recorded index py_len py_str s :
  py_keeps s (recorded index py_len py_str s).
Proof.
  unfold py_keeps, recorded. cbn. repeat split; [|lia].
  rewrite dom_insert_L. set_solver.
Qed.

Lemma py_keeps_set_pos p s : py_keeps s (set_pos p s).
Proof. by repeat split. Qed.

Lemma py_loop_record fuel py_data s a b c d rest :
  drop (pos s) py_data = a :: b :: c :: d :: rest →
  py_loop (S fuel) py_data s =
  py_loop fuel py_data
    (recorded (u16 a b) (u16 c d) (code_units (take (u16 c d) rest)) s).
Proof.
  intros Hd. unfold py_loop. apply scan_loop_next.
  - by eapply drop_cons_length.
  - by apply py_record_ok.
Qed.

Lemma py_record_round py_data s :
  pos s < length py_data →
  match py_record py_data s with
  | Ok _ s' => py_keeps s s' ∧ pos s < pos s'
  | Raised s' => py_keeps s (py_fault s') ∧ pos s < pos (py_fault s')
  | NoFuel => False
  end.
Proof.
  intros Hlt.
  destruct (decide (pos s + 4 ≤ length py_data)) as [H4|H4].
  - destruct (drop_four py_data (pos s) H4) as (a & b & c & d & rest & Hd).
    rewrite (py_record_ok _ _ _ _ _ _ _ Hd).
    split; [apply py_keeps_recorded|]. cbn. lia.
  - destruct (decide (pos s + 2 ≤ length py_data)) as [H2|H2].
    + rewrite py_record_short_len by lia. unfold py_fault. cbn.
      split; [|lia]. by repeat split.
    + rewrite py_record_short_index by lia. unfold py_fault. cbn.
      split; [|lia]. by repeat split.
Qed.

(** The pinyin loop ends on every sub-buffer. *)
Lemma py_loop_total fuel py_data s :
  length py_data - pos s < fuel →
  ∃ s', py_loop fuel py_data s = Ok () s' ∧
        py_keeps s s' ∧ length py_data ≤ pos s'.
Proof.
  intros Hfuel. unfold py_loop.
  apply (scan_loop_inv py_keeps); [|done].
  intros s0 Hs0. by apply py_record_round.
Qed.

Lemma parse_pinyin_total py_data s :
  ∃ s', parse_pinyin py_data s = Ok () s' ∧ py_keeps s s'.
Proof.
  unfold parse_pinyin.
  destruct (py_loop_total (S (length py_data)) py_data (set_pos 0 s))
    as (s' & Hrun & Hk & _); [cbn; lia|].
  exists s'. split; [done|]. etrans; [apply (py_keeps_set_pos 0)|done].
Qed.

(** C1 (amended): a fault is taken only when one of the two header reads
    finds fewer than two bytes.  Then nothing is recorded and the handler
    moves the cursor one byte on from where the failed read stood: one
    byte past the record start when the index read fails, three when the
    length read fails, the index having been consumed; the cursor is then
    at or past the end, and the scan stops.  When the header is read and
    fewer than [py_len] bytes are left for the text there is no fault: the
    record is stored with the text decoded from the bytes that are left,
    it is counted, and the cursor moves on by [4 + py_len]. *)
Theorem py_underflow (py_data : bytes) (s : locals) (fuel : nat) :
  pos s < length py_data →
  (length py_data < pos s + 2 →
   py_record py_data s = Raised s ∧
   py_loop (S fuel) py_data s = Ok () (set_pos (pos s + 1) s)) ∧
  (pos s + 2 ≤ length py_data → length py_data < pos s + 4 →
   py_record py_data s = Raised (set_pos (pos s + 2) s) ∧
   py_loop (S fuel) py_data s = Ok () (set_pos (pos s + 2 + 1) s)) ∧
  (∀ a b c d rest,
     drop (pos s) py_data = a :: b :: c :: d :: rest →
     length rest < u16 c d →
     py_record py_data s =
       Ok () (recorded (u16 a b) (u16 c d) (code_units rest) s) ∧
     py_loop (S (S fuel)) py_data s =
       Ok () (recorded (u16 a b) (u16 c d) (code_units rest) s)).
Proof.
  intros Hlt. split; [|split].
  - intros Hshort. pose proof (py_record_short_index py_data s Hshort) as Hr.
    split; [done|]. unfold py_loop.
    rewrite (scan_loop_fault _ _ _ _ _ _ Hlt Hr). unfold py_fault.
    destruct (decide _) as [_|Hn]; [done|]. cbn in Hn. lia.
  - intros H2 H4. pose proof (py_record_short_len py_data s H2 H4) as Hr.
    split; [done|]. unfold py_loop.
    rewrite (scan_loop_fault _ _ _ _ _ _ Hlt Hr). unfold py_fault.
    destruct (decide _) as [_|Hn]; [done|]. cbn in Hn. lia.
  - intros a b c d rest Hd Hrest.
    pose proof (py_record_ok _ _ _ _ _ _ _ Hd) as Hr.
    rewrite take_ge in Hr by lia. split; [done|].
    unfold py_loop. rewrite (scan_loop_next _ _ _ _ _ _ Hlt Hr).
    apply scan_loop_exit. cbn.
    pose proof (length_drop py_data (pos s)) as Hl. rewrite Hd in Hl.
    simpl in Hl. lia.
Qed.

Lemma py_underflow_witness :
  py_loop 1 [x01] init_locals = Ok () (set_pos 1 init_locals) ∧
  py_loop 1 [x01; x00; x04] init_locals = Ok () (set_pos 3 init_locals) ∧
  py_loop 2 [x01; x00; x04; x00; x6e; x00] init_locals =
    Ok () (recorded 1 4 [110] init_locals).
Proof.
  split; [|split].
  - assert (pos init_locals < length [x01]) as Hlt by (cbn; lia).
    destruct (py_underflow [x01] init_locals 0 Hlt) as (H1 & _ & _).
    apply H1. cbn. lia.
  - assert (pos init_locals < length [x01; x00; x04]) as Hlt by (cbn; lia).
    destruct (py_underflow [x01; x00; x04] init_locals 0 Hlt) as (_ & H2 & _).
    apply H2; cbn; lia.
  - assert (pos init_locals < length [x01; x00; x04; x00; x6e; x00]) as Hlt
      by (cbn; lia).
    destruct (py_underflow [x01; x00; x04; x00; x6e; x00] init_locals 0 Hlt)
      as (_ & _ & H3).
    apply (H3 x01 x00 x04 x00 [x6e; x00]); [reflexivity|].
    vm_compute. lia.
Defined.

(** C1 as stated fails where the text is cut short.  The sub-buffer holds
    index 1, length 4 and only two of the four text bytes.  No exception
    is raised: the record is stored with the one character that is left,
    it is counted, and the cursor moves by 8, not by 1. *)
Lemma py_text_underflow_counterexample :
  let py_data := [x01; x00; x04; x00; x6e; x00] in
  length py_data < 0 + 4 + 4 ∧
  py_record py_data init_locals = Ok () (Locals 8 {[1 := [110]]} 1 [] 0 0) ∧
  parse_pinyin py_data init_locals =
    Ok () (Locals 8 {[1 := [110]]} 1 [] 0 0) ∧
  parse_pinyin py_data init_locals ≠ Ok () (set_pos 1 init_locals).
Proof.
  cbn zeta. split; [cbn; lia|]. split; [|split].
  - vm_compute. reflexivity.
  - vm_compute. reflexivity.
  - vm_compute. intros H. discriminate H.
Qed.

Lemma drop_past {A} (pre rest : list A) p :
  p = length pre → drop p (pre ++ rest) = rest.
Proof. intros ->. apply drop_app_length. Qed.

(** C10: two well-formed records with the one index, [a b] its two
    bytes: the mapping holds the text of the second record under that
    index and nothing else, while [py_count] has counted both, so the
    printed count, 2, is larger than the number of keys, 1. *)
Theorem duplicate_index_last_wins (a b c1 d1 c2 d2 : byte) (t1 t2 : bytes) :
  length t1 = u16 c1 d1 → length t2 = u16 c2 d2 →
  ∃ s', parse_pinyin ([a; b; c1; d1] ++ t1 ++ [a; b; c2; d2] ++ t2)
          init_locals = Ok () s' ∧
        py_table s' = {[u16 a b := code_units t2]} ∧
        py_count s' = 2 ∧
        size (py_table s') = 1 ∧
        size (py_table s') < py_count s'.
Proof.
  intros H1 H2.
  set (py_data := [a; b; c1; d1] ++ t1 ++ [a; b; c2; d2] ++ t2).
  set (s1 := recorded (u16 a b) (u16 c1 d1) (code_units t1)
               (set_pos 0 init_locals)).
  set (s2 := recorded (u16 a b) (u16 c2 d2) (code_units t2) s1).
  assert (parse_pinyin py_data init_locals = Ok () s2) as Hrun.
  { unfold parse_pinyin.
    assert (length py_data = S (S (length t1 + 4 + length t2 + 2))) as ->.
    { unfold py_data. rewrite !length_app. simpl. lia. }
    rewrite (py_loop_record _ _ _ a b c1 d1 (t1 ++ [a; b; c2; d2] ++ t2))
      by reflexivity.
    rewrite take_app_length' by done. fold s1.
    rewrite (py_loop_record _ _ _ a b c2 d2 t2).
    2:{ unfold py_data. change ([a; b; c1; d1] ++ t1 ++ ?r)
          with (a :: b :: c1 :: d1 :: t1 ++ r).
        cbn [pos s1 recorded set_pos init_locals Nat.add drop].
        by apply drop_past. }
    rewrite take_ge by lia. fold s2.
    apply scan_loop_exit. unfold py_data. rewrite !length_app. cbn. lia. }
  exists s2. split; [done|].
  assert (py_table s2 = {[u16 a b := code_units t2]}) as Htable.
  { cbn. by rewrite insert_insert_eq, insert_empty. }
  rewrite Htable, map_size_singleton. cbn. repeat split; lia.
Qed.

Lemma duplicate_index_last_wins_witness :
  ∃ s', parse_pinyin ([x01; x00; x02; x00] ++ [x6e; x00] ++
                      [x01; x00; x02; x00] ++ [x68; x00]) init_locals
        = Ok () s' ∧
        py_table s' = {[u16 x01 x00 := code_units [x68; x00]]} ∧
        py_count s' = 2 ∧
        size (py_table s') = 1 ∧
        size (py_table s') < py_count s'.
Proof.
  apply (duplicate_index_last_wins x01 x00 x02 x00 x02 x00
           [x6e; x00] [x68; x00]); reflexivity.
Defined.

(** C8 (amended): three garbage bytes between two well-formed records
    raise no fault.  After the first record the decoder reads the three
    garbage bytes and the first byte of the second record as one record
    header: it stores an entry under the index the first two garbage bytes
    spell and counts it.  When the scan has ended the mapping has a key for
    that index and the count is at least 2.  That the second record is
    recovered is not promised. *)
Theorem garbage_is_recorded
    (a1 b1 c1 d1 g0 g1 g2 a2 b2 c2 d2 : byte) (t1 t2 : bytes) :
  length t1 = u16 c1 d1 → length t2 = u16 c2 d2 →
  let py_data :=
    [a1; b1; c1; d1] ++ t1 ++ [g0; g1; g2] ++ [a2; b2; c2; d2] ++ t2 in
  let s1 :=
    recorded (u16 a1 b1) (u16 c1 d1) (code_units t1) (set_pos 0 init_locals) in
  let s2 :=
    recorded (u16 g0 g1) (u16 g2 a2)
      (code_units (take (u16 g2 a2) (b2 :: c2 :: d2 :: t2))) s1 in
  (∀ fuel, py_loop (S (S fuel)) py_data (set_pos 0 init_locals) =
           py_loop fuel py_data s2) ∧
  error_count s2 = 0 ∧
  ∃ s', parse_pinyin py_data init_locals = Ok () s' ∧
        is_Some (py_table s' !! u16 g0 g1) ∧
        2 ≤ py_count s'.
Proof.
  intros H1 H2 py_data s1 s2.
  assert (∀ fuel, py_loop (S (S fuel)) py_data (set_pos 0 init_locals) =
                  py_loop fuel py_data s2) as Hrun.
  { intros fuel.
    rewrite (py_loop_record _ _ _ a1 b1 c1 d1
               (t1 ++ [g0; g1; g2] ++ [a2; b2; c2; d2] ++ t2))
      by reflexivity.
    rewrite take_app_length' by done. fold s1.
    rewrite (py_loop_record _ _ _ g0 g1 g2 a2 (b2 :: c2 :: d2 :: t2)); [done|].
    unfold py_data. change ([a1; b1; c1; d1] ++ t1 ++ ?r)
      with (a1 :: b1 :: c1 :: d1 :: t1 ++ r).
    cbn [pos s1 recorded set_pos init_locals Nat.add drop].
    by apply drop_past. }
  split; [done|]. split; [done|].
  unfold parse_pinyin.
  assert (∃ fuel, S (length py_data) = S (S fuel) ∧
                  length py_data - pos s2 < fuel) as (fuel & -> & Hfuel).
  { exists (length py_data - 1). unfold py_data. rewrite !length_app.
    cbn. lia. }
  rewrite Hrun.
  destruct (py_loop_total fuel py_data s2 Hfuel)
    as (s' & Hs' & (Hdom & Hcount & _) & _).
  exists s'. split; [done|]. split.
  - apply elem_of_dom, Hdom, elem_of_dom. cbn.
    rewrite lookup_insert_eq. by eexists.
  - cbn in Hcount. lia.
Qed.

Lemma garbage_is_recorded_witness :
  ∃ s', parse_pinyin ([x01; x00; x04; x00] ++ [x6e; x00; x69; x00] ++
                      [x07; x00; x00] ++
                      [x02; x00; x06; x00] ++
                      [x68; x00; x61; x00; x6f; x00]) init_locals
        = Ok () s' ∧
        is_Some (py_table s' !! u16 x07 x00) ∧
        2 ≤ py_count s'.
Proof.
  apply (garbage_is_recorded x01 x00 x04 x00 x07 x00 x00 x02 x00 x06 x00
           [x6e; x00; x69; x00] [x68; x00; x61; x00; x6f; x00]);
    reflexivity.
Defined.

(** C8 as stated fails.  The sub-buffer holds the record [1 ↦ "ni"], the
    garbage bytes [07 00 00] and the record [2 ↦ "hao"].  The scan ends
    with two records counted: the garbage is stored as an entry under
    index 7, and index 2, the second record, is not in the mapping. *)
Lemma garbage_counterexample :
  ∃ s', parse_pinyin ([x01; x00; x04; x00; x6e; x00; x69; x00] ++
                      [x07; x00; x00] ++
                      [x02; x00; x06; x00; x68; x00; x61; x00; x6f; x00])
          init_locals = Ok () s' ∧
        py_table s' !! 1 = Some [110; 105] ∧
        py_table s' !! 2 = None ∧
        length <$> py_table s' !! 7 = Some 4 ∧
        py_count s' = 2 ∧
        error_count s' = 0.
Proof.
  set (py_data := _ ++ _ ++ _).
  assert (match parse_pinyin py_data init_locals with
          | Ok _ s' =>
              py_table s' !! 1 = Some [110; 105] ∧
              py_table s' !! 2 = None ∧
              length <$> py_table s' !! 7 = Some 4 ∧
              py_count s' = 2 ∧
              error_count s' = 0
          | _ => False
          end) as Hrun by (vm_compute; done).
  destruct (parse_pinyin py_data init_locals) as [[] s'|s'|]; [|done..].
  by exists s'.
Qed.

(** ** Reasoning about a [try] body *)

Section triples.
Variable I : locals → Prop.
Variable R : relation locals.
Context `{!PreOrder R}.
Hypothesis I_stable : ∀ s s', I s → R s s' → I s'.
Hypothesis R_set_pos : ∀ s p, pos s ≤ p → R s (set_pos p s).

Lemma triple_ret {A} (a : A) : triple I R (mret a).
Proof. intros s _. cbn. reflexivity. Qed.

Lemma triple_bind {A B} (m : exec A) (f : A → exec B) :
  triple I R m → (∀ a, triple I R (f a)) → triple I R (m ≫= f).
Proof.
  intros Hm Hf s Hs. rewrite exec_bind_unfold.
  specialize (Hm s Hs). destruct (m s) as [a s1|s1|]; [|done..].
  specialize (Hf a s1 (I_stable _ _ Hs Hm)).
  destruct (f a s1) as [b s2|s2|]; [by etrans..|done].
Qed.

Lemma triple_unpack_at data : triple I R (unpack_at data).
Proof.
  intros s _. destruct (unpack_at_cases data s) as [(v & -> & _)|[-> _]];
    reflexivity.
Qed.

Lemma triple_advance n : triple I R (advance n).
Proof. intros s _. cbn. apply R_set_pos. lia. Qed.

Lemma triple_byte2str_at data n : triple I R (byte2str_at data n).
Proof. intros s _. rewrite byte2str_at_spec. reflexivity. Qed.

Lemma triple_read_indices data n py_indices :
  triple I R (read_indices data n py_indices).
Proof.
  revert py_indices. induction n as [|n IH]; intros py_indices.
  - apply triple_ret.
  - cbn [read_indices]. apply triple_bind; [apply triple_unpack_at|].
    intros py_index. apply triple_bind; [apply triple_advance|].
    intros _. apply IH.
Qed.
End triples.

(** ** The word loop *)

#[global] Instance word_keeps_preorder table : PreOrder (word_keeps table).
Proof.
  split.
  - intros s. repeat split; [lia..|]. exists [].
    by rewrite app_nil_r, Nat.add_0_r.
  - intros s1 s2 s3 (Hp1 & Ht1 & Hc1 & Hr1 & new1 & He1 & Hn1 & Hf1)
      (Hp2 & Ht2 & Hc2 & Hr2 & new2 & He2 & Hn2 & Hf2).
    repeat split; [lia|congruence|congruence|lia|].
    exists (new1 ++ new2). rewrite He2, He1, Hn2, Hn1, length_app, app_assoc.
    repeat split; [lia|]. by apply Forall_app.
Qed.

Lemma word_keeps_stable table s s' :
  py_table s = table → word_keeps table s s' → py_table s' = table.
Proof. intros <- (_ & Ht & _). done. Qed.

Lemma word_keeps_set_pos table s p : pos s ≤ p → word_keeps table s (set_pos p s).
Proof.
  intros Hp. repeat split; [done..|]. exists [].
  by rewrite app_nil_r, Nat.add_0_r.
Qed.

Lemma word_keeps_fault table s s' :
  word_keeps table s s' → word_keeps table s (word_fault s').
Proof.
  intros (Hp & Ht & Hc & Hr & new & He & Hn & Hf). unfold word_fault.
  repeat split; cbn; [lia|done|done|lia|]. by exists new.
Qed.

Lemma triple_append_entry table word pinyin freq :
  (∃ py_indices, resolve table py_indices ≠ [] ∧
                 pinyin = join space (resolve table py_indices)) →
  triple (λ s, py_table s = table) (word_keeps table)
    (append_entry (word, pinyin, freq)).
Proof.
  intros Hres s _. cbn. unfold word_keeps. cbn.
  split; [lia|]. do 3 (split; [done|]).
  exists [(word, pinyin, freq)]. split; [done|]. split; [done|].
  by apply Forall_singleton.
Qed.

Lemma triple_read_words table data pinyin n :
  (∃ py_indices, resolve table py_indices ≠ [] ∧
                 pinyin = join space (resolve table py_indices)) →
  triple (λ s, py_table s = table) (word_keeps table)
    (read_words data pinyin n).
Proof.
  intros Hres.
  pose proof (word_keeps_stable table) as Hst.
  pose proof (word_keeps_set_pos table) as Hsp.
  induction n as [|n IH]; cbn [read_words]; [apply triple_ret; apply _|].
  repeat (apply (triple_bind _ _ Hst); [|intros ?]);
    try first
      [ apply triple_unpack_at; apply _
      | by apply triple_advance
      | apply triple_byte2str_at; apply _
      | apply IH ].
  destruct (word_ok _); [by apply triple_append_entry|].
  apply triple_ret; apply _.
Qed.

(** Reading [n] indices when they are all there. *)
Lemma read_indices_ok data n py_indices s :
  pos s + 2 * n ≤ length data →
  read_indices data n py_indices s =
  Ok (py_indices ++ code_units (take (2 * n) (drop (pos s) data)))
     (set_pos (pos s + 2 * n) s).
Proof.
  revert py_indices s. induction n as [|n IH]; intros py_indices s Hlen.
  - rewrite Nat.mul_0_r, Nat.add_0_r. cbn. rewrite app_nil_r. by destruct s.
  - cbn [read_indices].
    destruct (drop (pos s) data) as [|lo [|hi rest]] eqn:Hd;
      try (apply (f_equal length) in Hd; rewrite length_drop in Hd;
           simpl in Hd; lia).
    rewrite exec_bind_unfold, (unpack_at_drop _ _ _ _ _ Hd).
    rewrite exec_bind_unfold. cbn [advance]. rewrite IH by (cbn; lia).
    cbn [pos set_pos]. rewrite <- drop_drop, Hd.
    replace (2 * S n) with (S (S (2 * n))) by lia.
    cbn [drop take code_units]. rewrite <- app_assoc, drop_0. cbn [app].
    f_equal. unfold set_pos. cbn. f_equal. lia.
Qed.

Lemma resolve_none (table : gmap nat str) py_indices :
  (∀ index, index ∈ py_indices → table !! index = None) →
  resolve table py_indices = [].
Proof.
  induction py_indices as [|index l IH]; intros Hnone; [done|].
  unfold resolve in *. cbn [omap list_omap].
  rewrite (Hnone index) by (apply elem_of_cons; by left).
  apply IH. intros i Hi. apply Hnone. apply elem_of_cons. by right.
Qed.

Lemma resolve_elem (table : gmap nat str) py_indices py_str :
  py_str ∈ resolve table py_indices →
  ∃ index, table !! index = Some py_str.
Proof.
  unfold resolve. intros (index & _ & Hl)%list_elem_of_omap. eauto.
Qed.

Lemma join_nonempty sep (parts : list str) :
  parts ≠ [] → Forall (λ p, p ≠ []) parts → join sep parts ≠ [].
Proof.
  destruct parts as [|p rest]; [done|]. intros _ Hall.
  apply Forall_cons in Hall as [Hp _]. cbn [join].
  destruct rest; [done|]. by destruct p.
Qed.

(** One round of the word loop: the group body, and the handler when the
    body raises. *)
Lemma word_group_round data s :
  match word_group data s with
  | Ok _ s' => word_keeps (py_table s) s s' ∧ pos s < pos s'
  | Raised s' =>
      word_keeps (py_table s) s (word_fault s') ∧ pos s < pos (word_fault s')
  | NoFuel => False
  end.
Proof.
  set (T := py_table s).
  pose proof (word_keeps_stable T) as Hst.
  pose proof (word_keeps_set_pos T) as Hsp.
  unfold word_group. rewrite exec_bind_unfold.
  destruct (unpack_at_cases data s) as [(same_count & -> & _)|[-> _]].
  2:{ split; [apply word_keeps_fault; reflexivity|cbn; lia]. }
  rewrite exec_bind_unfold. cbn [advance]. rewrite exec_bind_unfold.
  set (s1 := set_pos (pos s + 2) s).
  destruct (unpack_at_cases data s1) as [(py_table_len & -> & _)|[-> _]].
  2:{ split; [apply word_keeps_fault, Hsp; lia|cbn; lia]. }
  rewrite exec_bind_unfold. cbn [advance].
  set (s2 := set_pos (pos s1 + 2) s1).
  assert (word_keeps T s s2) as Hs2 by (apply (Hsp s); cbn; lia).
  lazymatch goal with
  | |- match ?m s2 with _ => _ end =>
      assert (triple (λ s, py_table s = T) (word_keeps T) m) as Htail
  end.
  { apply (triple_bind _ _ Hst); [apply (triple_read_indices _ _ Hst Hsp)|].
    intros py_indices s3 Hs3. rewrite exec_bind_unfold. cbn beta iota.
    rewrite Hs3. destruct (resolve T py_indices) as [|p parts] eqn:Hparts.
    - cbn [advance]. apply Hsp. lia.
    - refine (triple_read_words T _ _ _ _ s3 Hs3).
      exists py_indices. by rewrite Hparts. }
  specialize (Htail s2 eq_refl).
  lazymatch goal with
  | |- match ?m s2 with _ => _ end => destruct (m s2) as [[] s'|s'|]
  end; [| |done].
  - split; [by etrans|]. destruct Htail as [Hp _]. cbn in Hp. lia.
  - split; [apply word_keeps_fault; by etrans|].
    destruct Htail as [Hp _]. cbn in Hp |- *. lia.
Qed.

#[global] Instance word_run_preorder : PreOrder word_run.
Proof.
  split.
  - intros s. unfold word_run. reflexivity.
  - intros s1 s2 s3 H12 H23. unfold word_run in *.
    assert (py_table s2 = py_table s1) as Ht by apply H12.
    rewrite Ht in H23. by etrans.
Qed.

(** The word loop ends on every sub-buffer. *)
Lemma word_loop_total fuel chinese_data s :
  length chinese_data - pos s < fuel →
  ∃ s', word_loop fuel chinese_data s = Ok () s' ∧
        word_run s s' ∧ length chinese_data ≤ pos s'.
Proof.
  intros Hfuel. unfold word_loop.
  apply (scan_loop_inv word_run); [|done].
  intros s0 _. apply word_group_round.
Qed.

Lemma parse_words_total chinese_data s :
  ∃ s', parse_words chinese_data s = Ok () s' ∧
        py_table s' = py_table s ∧
        py_count s' = py_count s ∧
        ∃ new, entries s' = entries s ++ new ∧
               Forall (resolved (py_table s)) new.
Proof.
  unfold parse_words.
  destruct (word_loop_total (S (length chinese_data)) chinese_data
              (set_pos 0 s)) as (s' & Hrun & Hk & _); [cbn; lia|].
  exists s'. split; [done|].
  destruct Hk as (_ & Ht & Hc & _ & new & He & _ & Hf). cbn in *.
  repeat split; [done..|]. by exists new.
Qed.

(** C3: a group whose header and index table are read in full and none
    of whose indices is in the mapping: the round stores no entry, counts
    no fault and leaves the cursor [same_count * 14] bytes past the index
    table; the loop goes on from there.  [a b] are the bytes of
    [same_count], [c d] those of the index table length. *)
Theorem unresolved_group_skipped (chinese_data : bytes) (s : locals)
    (a b c d : byte) (rest : bytes) (fuel : nat) :
  drop (pos s) chinese_data = a :: b :: c :: d :: rest →
  2 * (u16 c d / 2) ≤ length rest →
  (∀ index, index ∈ code_units (take (2 * (u16 c d / 2)) rest) →
            py_table s !! index = None) →
  word_group chinese_data s =
    Ok () (set_pos (pos s + 4 + 2 * (u16 c d / 2) + u16 a b * 14) s) ∧
  word_loop (S fuel) chinese_data s =
    word_loop fuel chinese_data
      (set_pos (pos s + 4 + 2 * (u16 c d / 2) + u16 a b * 14) s).
Proof.
  intros Hd Hlen Hnone.
  assert (word_group chinese_data s =
          Ok () (set_pos (pos s + 4 + 2 * (u16 c d / 2) + u16 a b * 14) s))
    as Hgroup.
  { unfold word_group.
    rewrite exec_bind_unfold, (unpack_at_drop _ _ _ _ _ Hd).
    rewrite exec_bind_unfold. cbn [advance]. rewrite exec_bind_unfold.
    rewrite (unpack_at_drop _ _ c d rest)
      by (cbn [pos set_pos]; by rewrite <- drop_drop, Hd).
    rewrite exec_bind_unfold. cbn [advance]. rewrite exec_bind_unfold.
    assert (length chinese_data = pos s + 4 + length rest) as Hl.
    { pose proof (length_drop chinese_data (pos s)) as Hl.
      rewrite Hd in Hl. simpl in Hl.
      pose proof (drop_cons_length _ _ _ _ Hd). lia. }
    rewrite read_indices_ok by (cbn [pos set_pos]; lia).
    cbn [pos set_pos app]. rewrite exec_bind_unfold. cbn beta iota.
    replace (drop (pos s + 2 + 2) chinese_data) with rest
      by (by rewrite <- !drop_drop, Hd).
    cbn [py_table set_pos]. rewrite (resolve_none _ _ Hnone).
    unfold advance, set_pos. cbn. do 2 f_equal. lia. }
  split; [done|]. unfold word_loop. apply scan_loop_next; [|done].
  by eapply drop_cons_length.
Qed.

Lemma unresolved_group_skipped_witness :
  word_group [x02; x00; x02; x00; x05; x00] init_locals =
    Ok () (set_pos 34 init_locals) ∧
  word_loop 2 [x02; x00; x02; x00; x05; x00] init_locals =
    word_loop 1 [x02; x00; x02; x00; x05; x00] (set_pos 34 init_locals).
Proof.
  apply (unresolved_group_skipped [x02; x00; x02; x00; x05; x00]
           init_locals x02 x00 x02 x00 [x05; x00] 1).
  - reflexivity.
  - vm_compute. lia.
  - intros index _. apply lookup_empty.
Defined.

(** *** Where the entries of a round come from *)

#[global] Instance adds_with_preorder P : PreOrder (adds_with P).
Proof.
  split.
  - intros s. unfold adds_with. split; [lia|]. split; [done|].
    exists []. by rewrite app_nil_r.
  - intros s1 s2 s3 (Hp1 & Ht1 & new1 & He1 & Hf1)
      (Hp2 & Ht2 & new2 & He2 & Hf2).
    unfold adds_with. split; [lia|]. split; [congruence|].
    exists (new1 ++ new2). rewrite He2, He1, app_assoc.
    split; [done|]. by apply Forall_app.
Qed.

Lemma adds_with_set_pos P s p : pos s ≤ p → adds_with P s (set_pos p s).
Proof.
  intros Hp. unfold adds_with. split; [done|]. split; [done|].
  exists []. by rewrite app_nil_r.
Qed.

Lemma triple_read_words_with (P : entry → Prop) data pinyin n :
  (∀ word freq, P (word, pinyin, freq)) →
  triple (λ _, True) (adds_with P) (read_words data pinyin n).
Proof.
  intros HP.
  assert (∀ s s' : locals, True → adds_with P s s' → True) as Hst by done.
  pose proof (adds_with_set_pos P) as Hsp.
  induction n as [|n IH]; cbn [read_words]; [apply triple_ret; apply _|].
  repeat (apply (triple_bind _ _ Hst); [|intros ?]);
    try first
      [ apply triple_unpack_at; apply _
      | by apply triple_advance
      | apply triple_byte2str_at; apply _
      | apply IH ].
  destruct (word_ok _); [|apply triple_ret; apply _].
  intros s _. cbn. unfold adds_with. cbn. split; [lia|]. split; [done|].
  eexists [_]. split; [done|]. by apply Forall_singleton.
Qed.

(** Reading the indices when the index table is cut: the read raises,
    with nothing but the cursor changed. *)
Lemma read_indices_short data n py_indices s :
  pos s ≤ length data → length data < pos s + 2 * n →
  ∃ p, read_indices data n py_indices s = Raised (set_pos p s).
Proof.
  revert py_indices s.
  induction n as [|n IH]; intros py_indices s Hpos Hlen; [lia|].
  cbn [read_indices]. rewrite exec_bind_unfold.
  destruct (unpack_at_cases data s) as [(v & -> & Hv)|[-> _]].
  - rewrite exec_bind_unfold. cbn [advance].
    destruct (IH (py_indices ++ [v]) (set_pos (pos s + 2) s)) as (p & ->);
      [cbn; lia..|].
    by exists p.
  - exists (pos s). by destruct s.
Qed.

Lemma round_adds_only_pos data s s1 :
  s1 = set_pos (pos s1) s → round_adds data s s1.
Proof.
  intros ->. split; [done|]. exists []. by rewrite app_nil_r.
Qed.

(** One round of the word loop, whatever the locals it starts from. *)
Lemma word_group_adds data s :
  match word_group data s with
  | Ok _ s1 => round_adds data s s1
  | Raised s1 => round_adds data s s1
  | NoFuel => False
  end.
Proof.
  destruct (decide (pos s + 4 ≤ length data)) as [H4|H4].
  2:{ unfold word_group. rewrite exec_bind_unfold.
      destruct (unpack_at_cases data s) as [(v & -> & Hv)|[-> _]].
      - rewrite exec_bind_unfold. cbn [advance]. rewrite exec_bind_unfold.
        rewrite unpack_at_short by (cbn; lia). lazy beta iota.
        by apply round_adds_only_pos.
      - apply round_adds_only_pos. by destruct s. }
  destruct (drop_four data (pos s) H4) as (a & b & c & d & rest & Hd).
  assert (length data = pos s + 4 + length rest) as Hlen.
  { pose proof (length_drop data (pos s)) as Hl. rewrite Hd in Hl.
    simpl in Hl. lia. }
  unfold word_group.
  rewrite exec_bind_unfold, (unpack_at_drop _ _ _ _ _ Hd).
  rewrite exec_bind_unfold. cbn [advance]. rewrite exec_bind_unfold.
  rewrite (unpack_at_drop _ _ c d rest)
    by (cbn [pos set_pos]; by rewrite <- drop_drop, Hd).
  rewrite exec_bind_unfold. cbn [advance]. rewrite exec_bind_unfold.
  destruct (decide (2 * (u16 c d / 2) ≤ length rest)) as [Hidx|Hidx].
  2:{ destruct (read_indices_short data (u16 c d / 2) []
                  (set_pos (pos (set_pos (pos s + 2) s) + 2)
                     (set_pos (pos s + 2) s))) as (p & ->);
        [cbn [pos set_pos]; lia..|].
      lazy beta iota. by apply round_adds_only_pos. }
  rewrite read_indices_ok by (cbn [pos set_pos]; lia).
  cbn [pos set_pos app]. rewrite exec_bind_unfold. cbn beta iota.
  replace (drop (pos s + 2 + 2) data) with rest
    by (by rewrite <- !drop_drop, Hd).
  cbn [py_table set_pos].
  set (py_indices := code_units (take (2 * (u16 c d / 2)) rest)).
  assert (group_indices data (pos s) = Some py_indices) as Hgroup.
  { unfold group_indices. rewrite Hd. by rewrite decide_True. }
  destruct (resolve (py_table s) py_indices) as [|part parts] eqn:Hparts.
  { by apply round_adds_only_pos. }
  set (pinyin := join space (part :: parts)).
  lazymatch goal with
  | |- match read_words _ _ _ ?s3 with _ => _ end =>
      pose proof (triple_read_words_with (λ e, pinyin_of e = pinyin)
                    data pinyin (u16 a b) (λ _ _, eq_refl) s3 Logic.I)
        as Hwords;
      destruct (read_words data pinyin (u16 a b) s3) as [[] s1|s1|]
  end; [| |done].
  all: destruct Hwords as (_ & Ht & new & He & Hall);
    (split; [exact Ht|]); exists new; (split; [exact He|]);
    eapply Forall_impl; [exact Hall|];
    intros e Hpin; exists py_indices; rewrite Hparts;
    (split; [done|]); (split; [done|]); exact Hpin.
Qed.

#[global] Instance run_adds_preorder data : PreOrder (run_adds data).
Proof.
  split.
  - intros s. split; [done|]. exists []. by rewrite app_nil_r.
  - intros s1 s2 s3 (Ht1 & new1 & He1 & Hf1) (Ht2 & new2 & He2 & Hf2).
    split; [congruence|]. exists (new1 ++ new2).
    rewrite He2, He1, app_assoc. split; [done|].
    rewrite Ht1 in Hf2. by apply Forall_app.
Qed.

Lemma round_adds_run data s s1 : round_adds data s s1 → run_adds data s s1.
Proof.
  intros (Ht & new & He & Hall). split; [done|]. exists new.
  split; [done|]. eapply Forall_impl; [exact Hall|]. intros e He'.
  by exists (pos s).
Qed.

Lemma run_adds_fault data s s1 :
  run_adds data s s1 → run_adds data s (word_fault s1).
Proof. intros (Ht & new & He & Hall). split; [done|]. by exists new. Qed.

Lemma parse_words_run chinese_data s :
  ∃ s', parse_words chinese_data s = Ok () s' ∧
        run_adds chinese_data (set_pos 0 s) s'.
Proof.
  unfold parse_words, word_loop.
  destruct (scan_loop_inv (run_adds chinese_data)
              (word_group chinese_data) word_fault (length chinese_data))
    with (fuel := S (length chinese_data)) (s := set_pos 0 s)
    as (s' & Hrun & Hadds & _); [|cbn; lia|by exists s'].
  intros s0 _. pose proof (word_group_round chinese_data s0) as Hround.
  pose proof (word_group_adds chinese_data s0) as Hadds.
  destruct (word_group chinese_data s0) as [[] s1|s1|]; [| |done].
  - split; [by apply round_adds_run|]. apply Hround.
  - split; [by apply run_adds_fault, round_adds_run|]. apply Hround.
Qed.

(** C2 (amended): the word table decoder ends on every sub-buffer, and
    every entry it appends comes from a group of the buffer of which at
    least one index is in the mapping: its pinyin is the single-space
    join of the strings found for the indices of that group.  This holds
    round by round: whatever a round appends comes from the group at the
    cursor of that round, so a group none of whose indices is in the
    mapping, or whose index table is cut, adds no entry.  The pinyin is
    non-empty when the mapping holds no empty string. *)
Theorem entries_have_resolved_pinyin (chinese_data : bytes) (s : locals) :
  (∃ s' new,
     parse_words chinese_data s = Ok () s' ∧
     entries s' = entries s ++ new ∧
     Forall (λ e, ∃ p py_indices,
                    group_indices chinese_data p = Some py_indices ∧
                    resolve (py_table s) py_indices ≠ [] ∧
                    pinyin_of e =
                      join space (resolve (py_table s) py_indices))
            new ∧
     ((∀ index py_str, py_table s !! index = Some py_str → py_str ≠ []) →
      Forall (λ e, pinyin_of e ≠ []) new)) ∧
  (∀ s0 : locals,
     match word_group chinese_data s0 with
     | Ok _ s1 | Raised s1 =>
         ∃ new,
           entries s1 = entries s0 ++ new ∧
           Forall (λ e, ∃ py_indices,
                          group_indices chinese_data (pos s0)
                            = Some py_indices ∧
                          resolve (py_table s0) py_indices ≠ [] ∧
                          pinyin_of e =
                            join space (resolve (py_table s0) py_indices))
                  new ∧
           (∀ py_indices,
              group_indices chinese_data (pos s0) = Some py_indices →
              resolve (py_table s0) py_indices = [] → new = []) ∧
           (group_indices chinese_data (pos s0) = None → new = [])
     | NoFuel => False
     end).
Proof.
  split.
  - destruct (parse_words_run chinese_data s)
      as (s' & Hrun & _ & new & He & Hall).
    cbn [set_pos py_table entries] in He, Hall.
    exists s', new. do 2 (split; [done|]).
    assert (Forall (λ e, ∃ p py_indices,
                      group_indices chinese_data p = Some py_indices ∧
                      resolve (py_table s) py_indices ≠ [] ∧
                      pinyin_of e =
                        join space (resolve (py_table s) py_indices)) new)
      as Hall'.
    { eapply Forall_impl; [exact Hall|].
      intros e (p & py_indices & Hg & Hne & Hpin). by exists p, py_indices. }
    split; [done|].
    intros Hfull. eapply Forall_impl; [exact Hall'|].
    intros e (p & py_indices & _ & Hne & ->). apply join_nonempty; [done|].
    apply Forall_forall. intros py_str (index & Hin)%resolve_elem. eauto.
  - intros s0. pose proof (word_group_adds chinese_data s0) as Hadds.
    destruct (word_group chinese_data s0) as [[] s1|s1|]; [| |done].
    all: destruct Hadds as (_ & new & He & Hall); exists new;
      (split; [exact He|]); (split; [exact Hall|]); split.
    all: try (intros py_indices Hg Hnone; destruct new as [|e new];
              [done|]; apply Forall_cons in Hall as [(l & Hl & Hne & _) _];
              rewrite Hg in Hl; injection Hl as <-; done).
    all: intros Hg; destruct new as [|e new]; [done|];
      apply Forall_cons in Hall as [(l & Hl & _) _]; by rewrite Hg in Hl.
Qed.

Lemma entries_have_resolved_pinyin_witness :
  (∃ s' new,
     parse_words [x01; x00; x02; x00; x01; x00;
                  x02; x00; x41; x00; x02; x00; x05; x00]
       (set_py_table {[1 := [110; 105]]} init_locals) = Ok () s' ∧
     entries s' = [] ++ new ∧
     Forall (λ e, pinyin_of e ≠ []) new) ∧
  (∃ new,
     entries (set_pos 20 (set_py_table {[1 := [110; 105]]} init_locals))
       = [] ++ new ∧
     new = []).
Proof.
  destruct (entries_have_resolved_pinyin
              [x01; x00; x02; x00; x01; x00;
               x02; x00; x41; x00; x02; x00; x05; x00]
              (set_py_table {[1 := [110; 105]]} init_locals))
    as [(s' & new & Hrun & He & _ & Hne) _].
  destruct (entries_have_resolved_pinyin
              [x01; x00; x02; x00; x07; x00;
               x02; x00; x41; x00; x02; x00; x05; x00]
              (set_py_table {[1 := [110; 105]]} init_locals))
    as [_ Hround].
  specialize (Hround (set_py_table {[1 := [110; 105]]} init_locals)).
  split.
  - exists s', new. repeat split; [done..|]. apply Hne.
    intros index py_str. cbn.
    intros [_ <-]%lookup_singleton_Some. done.
  - destruct Hround as (new' & He' & _ & Hnone & _).
    exists new'. split; [exact He'|].
    apply (Hnone [7]); reflexivity.
Defined.

(** C2 as stated fails.  The zero bytes of the pinyin table are records
    with index 0 and length 0, so the mapping sends 0 to the empty string.
    The group's index is found, [pinyin_parts] is not empty, and the entry
    is appended with the empty string as its pinyin. *)
Lemma empty_pinyin_counterexample :
  ∃ s' e,
    parse_scel empty_pinyin_file = Ok (Some [e]) s' ∧
    e = ([65], [], 5) ∧
    pinyin_of e = [].
Proof.
  assert (match parse_scel empty_pinyin_file with
          | Ok r _ => r = Some [([65], [], 5)]
          | _ => False
          end) as Hrun by (vm_compute; done).
  destruct (parse_scel empty_pinyin_file) as [r s'|s'|]; [|done..].
  subst r. by exists s', ([65], [], 5).
Qed.

(** ** [parse_scel] *)

Lemma parse_tables_total data s : ∃ s', parse_tables data s = Ok () s'.
Proof.
  unfold parse_tables. rewrite exec_bind_unfold.
  destruct (parse_pinyin_total (drop start_py data) s) as (s1 & -> & _).
  destruct (parse_words_total (drop start_chinese data) s1) as (s2 & -> & _).
  by exists s2.
Qed.

(** C6: [parse_scel] goes on to the tables exactly when the buffer has
    twelve bytes and they are the magic; a shorter buffer or another
    prefix gives [None], with the locals untouched: no table is parsed. *)
Theorem header_validator (data : bytes) :
  ((∃ l s, parse_scel data = Ok (Some l) s ∧
           parse_tables data init_locals = Ok () s ∧ l = entries s) ↔
   12 ≤ length data ∧ take 12 data = magic) ∧
  (length data < 12 ∨ take 12 data ≠ magic →
   parse_scel data = Ok None init_locals).
Proof.
  assert (take 12 data = magic → 12 ≤ length data) as Hlen.
  { intros Hm. apply (f_equal length) in Hm. rewrite length_take in Hm.
    change (length magic) with 12 in Hm. lia. }
  unfold parse_scel. split; [split|].
  - intros (l & s & Hrun & _).
    destruct (decide (take 12 data = magic)) as [Hm|Hm]; [auto|done].
  - intros [_ Hm]. destruct (decide (take 12 data = magic)); [|done].
    destruct (parse_tables_total data init_locals) as (s & Hs).
    exists (entries s), s. by rewrite Hs.
  - intros Hbad. destruct (decide (take 12 data = magic)) as [Hm|Hm]; [|done].
    destruct Hbad as [Hshort|Hne]; [|done]. specialize (Hlen Hm). lia.
Qed.

Lemma header_validator_witness :
  parse_scel [x40; x15; x00; x00; x44; x43; x53] = Ok None init_locals ∧
  parse_scel [x40; x15; x00; x00; x44; x43; x53; x01; x01; x00; x00; x01]
  = Ok None init_locals ∧
  ∃ l s, parse_scel magic = Ok (Some l) s ∧
         parse_tables magic init_locals = Ok () s ∧ l = entries s.
Proof.
  split; [|split].
  - apply (header_validator [x40; x15; x00; x00; x44; x43; x53]).
    left. cbn. lia.
  - apply (header_validator
             [x40; x15; x00; x00; x44; x43; x53; x01; x01; x00; x00; x01]).
    right. intros H. discriminate H.
  - apply (header_validator magic). split; [cbn; lia|reflexivity].
Defined.

(** ** The filter and the sort *)

Section sort_desc.
Context {A : Type} (key : A → nat).

Lemma insert_desc_perm x l : insert_desc key x l ≡ₚ x :: l.
Proof.
  induction l as [|y l IH]; cbn [insert_desc]; [done|].
  destruct (decide (key y ≤ key x)); [done|].
  rewrite IH. apply Permutation_swap.
Qed.

Lemma sort_desc_perm l : sort_desc key l ≡ₚ l.
Proof.
  induction l as [|x l IH]; [done|]. unfold sort_desc in *.
  cbn [foldr]. by rewrite insert_desc_perm, IH.
Qed.

Lemma insert_desc_hd x y l :
  key x ≤ key y → HdRel (λ a b, key b ≤ key a) y l →
  HdRel (λ a b, key b ≤ key a) y (insert_desc key x l).
Proof.
  intros Hxy Hhd. destruct l as [|z l]; cbn [insert_desc].
  - by constructor.
  - destruct (decide (key z ≤ key x)); constructor; [done|].
    by apply HdRel_inv in Hhd.
Qed.

Lemma insert_desc_sorted x l :
  Sorted (λ a b, key b ≤ key a) l →
  Sorted (λ a b, key b ≤ key a) (insert_desc key x l).
Proof.
  induction 1 as [|y l Hs IH Hhd]; cbn [insert_desc].
  - by repeat constructor.
  - destruct (decide (key y ≤ key x)) as [Hle|Hgt].
    + constructor; [by constructor|by constructor].
    + constructor; [done|]. apply insert_desc_hd; [lia|done].
Qed.

Lemma sort_desc_sorted l : Sorted (λ a b, key b ≤ key a) (sort_desc key l).
Proof.
  induction l as [|x l IH]; [constructor|].
  unfold sort_desc in *. cbn [foldr]. by apply insert_desc_sorted.
Qed.

(** The inserted element goes in front of the elements of its key. *)
Lemma insert_desc_filter_key k x l :
  filter (λ a, key a = k) (insert_desc key x l) =
  filter (λ a, key a = k) (x :: l).
Proof.
  induction l as [|y l IH]; cbn [insert_desc]; [done|].
  destruct (decide (key y ≤ key x)) as [Hle|Hgt]; [done|].
  rewrite filter_cons, IH, !filter_cons.
  destruct (decide (key y = k)) as [Hy|Hy];
    destruct (decide (key x = k)) as [Hx|Hx]; try done. lia.
Qed.

Lemma sort_desc_filter_key k l :
  filter (λ a, key a = k) (sort_desc key l) = filter (λ a, key a = k) l.
Proof.
  induction l as [|x l IH]; [done|]. unfold sort_desc in *.
  cbn [foldr]. rewrite insert_desc_filter_key, !filter_cons, IH. done.
Qed.
End sort_desc.

(** C4: every row that [generate_rime_yaml] writes passed the filter:
    its frequency is at least [min_freq] and the length of its word lies
    between [min_length] and [max_length]; and from each row to the next
    the frequency does not grow. *)
Theorem filter_sort_postcondition (l : list entry)
    (min_freq min_length max_length : Z) :
  Forall (λ e, (min_freq ≤ Z.of_nat (freq_of e))%Z ∧
               (min_length ≤ Z.of_nat (length (word_of e)) ≤ max_length)%Z)
         (generate_rime_yaml l min_freq min_length max_length) ∧
  Sorted freq_desc (generate_rime_yaml l min_freq min_length max_length).
Proof.
  split.
  - unfold generate_rime_yaml. rewrite sort_desc_perm.
    apply Forall_forall. intros e He.
    by apply list_elem_of_filter in He as [Hk _].
  - apply sort_desc_sorted.
Qed.

(** C5: the sort is stable: for each frequency, the rows of that
    frequency are written in the order they have in the filtered
    sequence. *)
Theorem sort_is_stable (l : list entry) (min_freq min_length max_length : Z)
    (freq : nat) :
  filter (λ e, freq_of e = freq)
    (generate_rime_yaml l min_freq min_length max_length) =
  filter (λ e, freq_of e = freq)
    (filter_entries min_freq min_length max_length l).
Proof. unfold generate_rime_yaml. apply sort_desc_filter_key. Qed.

(** * Further properties of the decoder *)

(** ** [byte2str] *)

Lemma byte_val_inj b1 b2 : byte_val b1 = byte_val b2 → b1 = b2.
Proof.
  unfold byte_val. intros H%(inj N.to_nat).
  pose proof (Byte.of_to_N b1) as H1. rewrite H, Byte.of_to_N in H1.
  by injection H1.
Qed.

Lemma u16_inj lo1 hi1 lo2 hi2 :
  u16 lo1 hi1 = u16 lo2 hi2 → lo1 = lo2 ∧ hi1 = hi2.
Proof.
  unfold u16. intros H.
  pose proof (byte_val_lt lo1). pose proof (byte_val_lt lo2).
  split; apply byte_val_inj; lia.
Qed.

Lemma code_units_app d1 d2 :
  Nat.Even (length d1) → code_units (d1 ++ d2) = code_units d1 ++ code_units d2.
Proof.
  induction d1 as [d1 IH] using (induction_ltof1 _ (@length byte)).
  unfold ltof in IH. intros Hev.
  destruct d1 as [|lo [|hi rest]]; [done| |].
  - destruct Hev as [k Hk]. simpl in Hk. lia.
  - cbn [app code_units]. f_equal. apply IH; [simpl; lia|].
    destruct Hev as [k Hk]. exists (k - 1). simpl in Hk. lia.
Qed.

Lemma code_units_inj d1 d2 :
  Nat.Even (length d1) → Nat.Even (length d2) →
  code_units d1 = code_units d2 → d1 = d2.
Proof.
  revert d2. induction d1 as [d1 IH] using (induction_ltof1 _ (@length byte)).
  unfold ltof in IH. intros d2 Hev1 Hev2 Heq.
  destruct d1 as [|lo1 [|hi1 rest1]].
  - destruct d2 as [|lo2 [|hi2 rest2]]; [done| |done].
    destruct Hev2 as [k Hk]. simpl in Hk. lia.
  - destruct Hev1 as [k Hk]. simpl in Hk. lia.
  - destruct d2 as [|lo2 [|hi2 rest2]]; [done| |].
    + destruct Hev2 as [k Hk]. simpl in Hk. lia.
    + cbn [code_units] in Heq. injection Heq as Hu Hrest.
      apply u16_inj in Hu as [-> ->]. do 2 f_equal.
      apply IH; [simpl; lia| | |done].
      * destruct Hev1 as [k Hk]. exists (k - 1). simpl in Hk. lia.
      * destruct Hev2 as [k Hk]. exists (k - 1). simpl in Hk. lia.
Qed.

(** X1: no character that [byte2str] returns lies outside the basic
    multilingual plane: each is one 16-bit unit, so a surrogate pair of
    the input comes out as two characters and never as one. *)
Theorem byte2str_chars_are_units (data : bytes) :
  ∃ s, byte2str data = Some s ∧ Forall (λ c, c < 256 * 256) s.
Proof.
  exists (code_units data). split; [apply byte2str_spec|].
  apply Forall_forall. intros c. apply code_units_lt.
Qed.

(** X2: decoding a span cut at an even offset is decoding the two parts
    and joining the strings. *)
Theorem byte2str_app (d1 d2 : bytes) :
  Nat.Even (length d1) →
  ∃ s1 s2, byte2str d1 = Some s1 ∧ byte2str d2 = Some s2 ∧
           byte2str (d1 ++ d2) = Some (s1 ++ s2).
Proof.
  intros Hev. exists (code_units d1), (code_units d2).
  rewrite !byte2str_spec. repeat split. f_equal. by apply code_units_app.
Qed.

Lemma byte2str_app_witness :
  ∃ s1 s2, byte2str [x6e; x00] = Some s1 ∧ byte2str [x69; x00; x01] = Some s2 ∧
           byte2str ([x6e; x00] ++ [x69; x00; x01]) = Some (s1 ++ s2).
Proof. apply (byte2str_app [x6e; x00] [x69; x00; x01]). exists 1. reflexivity. Defined.

(** X3: on spans of even length [byte2str] loses nothing: two such spans
    with the same string are the same bytes. *)
Theorem byte2str_inj (d1 d2 : bytes) :
  Nat.Even (length d1) → Nat.Even (length d2) →
  byte2str d1 = byte2str d2 → d1 = d2.
Proof.
  intros Hev1 Hev2. rewrite !byte2str_spec. intros [= Heq].
  by apply code_units_inj.
Qed.

Lemma byte2str_inj_witness : [x6e; x00] = [x6e; x00].
Proof.
  apply (byte2str_inj [x6e; x00] [x6e; x00]);
    [exists 1; reflexivity..|reflexivity].
Defined.

(** ** A table of well-formed pinyin records *)

Lemma py_loop_records rs : ∀ py_data s fuel,
  Forall py_rec_wf rs →
  drop (pos s) py_data = concat (py_rec_bytes <$> rs) →
  length py_data - pos s < fuel →
  py_loop fuel py_data s =
  Ok () (Locals (pos s + length (concat (py_rec_bytes <$> rs)))
           (foldl store_rec (py_table s) rs) (py_count s + length rs)
           (entries s) (entry_count s) (error_count s)).
Proof.
  induction rs as [|r rs IH]; intros py_data s fuel Hwf Hd Hfuel.
  - destruct fuel as [|fuel]; [lia|]. unfold py_loop.
    rewrite scan_loop_exit.
    + cbn. rewrite !Nat.add_0_r. by destruct s.
    + pose proof (length_drop py_data (pos s)) as Hl. rewrite Hd in Hl.
      cbn in Hl. lia.
  - apply Forall_cons in Hwf as [Hr Hwf]. unfold py_rec_wf in Hr.
    destruct r as [[a b] [c d] text]. cbn in Hr, Hd.
    destruct fuel as [|fuel]; [lia|].
    rewrite (py_loop_record _ _ _ _ _ _ _ _ Hd).
    rewrite take_app_length' by done.
    pose proof (drop_cons_length _ _ _ _ Hd) as Hlt.
    rewrite IH; [|done| |cbn; lia].
    + cbn. rewrite !length_app. f_equal. f_equal; lia.
    + cbn [pos recorded].
      replace (pos s + 4 + u16 c d) with (pos s + (4 + length text)) by lia.
      rewrite <- drop_drop, Hd. cbn [Nat.add drop]. by apply drop_past.
Qed.

(** X4: a sub-buffer that is a run of well-formed pinyin records is
    decoded without a fault: the records are stored in order, a later
    record replacing an earlier one with the same index, the count is the
    number of records and the cursor ends at the end of the sub-buffer. *)
Theorem pinyin_table_decodes (rs : list py_rec) (s : locals) :
  Forall py_rec_wf rs →
  parse_pinyin (concat (py_rec_bytes <$> rs)) s =
  Ok () (Locals (length (concat (py_rec_bytes <$> rs)))
           (foldl store_rec (py_table s) rs) (py_count s + length rs)
           (entries s) (entry_count s) (error_count s)).
Proof.
  intros Hwf. unfold parse_pinyin.
  by rewrite (py_loop_records rs) by (done || cbn; lia).
Qed.

Lemma pinyin_table_decodes_witness :
  parse_pinyin
    (concat (py_rec_bytes <$>
       [PyRec (x01, x00) (x04, x00) [x6e; x00; x69; x00];
        PyRec (x02, x00) (x06, x00) [x68; x00; x61; x00; x6f; x00]]))
    init_locals =
  Ok () (Locals 18 (<[2 := [104; 97; 111]]> (<[1 := [110; 105]]> ∅)) 2
           [] 0 0).
Proof.
  assert (Forall py_rec_wf
            [PyRec (x01, x00) (x04, x00) [x6e; x00; x69; x00];
             PyRec (x02, x00) (x06, x00) [x68; x00; x61; x00; x6f; x00]])
    as Hwf by (repeat constructor).
  exact (pinyin_table_decodes _ init_locals Hwf).
Defined.

(** ** The count of the pinyin loop *)

#[global] Instance py_counts_preorder len : PreOrder (py_counts len).
Proof.
  split.
  - intros s. unfold py_counts. lia.
  - intros s1 s2 s3 [H1 H2] [H3 H4]. unfold py_counts. lia.
Qed.

Lemma py_record_counts py_data s :
  pos s < length py_data →
  match py_record py_data s with
  | Ok _ s' => py_counts (length py_data) s s' ∧ pos s < pos s'
  | Raised s' =>
      py_counts (length py_data) s (py_fault s') ∧ pos s < pos (py_fault s')
  | NoFuel => False
  end.
Proof.
  intros Hlt.
  destruct (decide (pos s + 4 ≤ length py_data)) as [H4|H4].
  - destruct (drop_four py_data (pos s) H4) as (a & b & c & d & rest & Hd).
    rewrite (py_record_ok _ _ _ _ _ _ _ Hd). unfold py_counts. cbn.
    split; [|lia]. rewrite map_size_insert.
    destruct (py_table s !! u16 a b); cbn; lia.
  - destruct (decide (pos s + 2 ≤ length py_data)) as [H2|H2].
    + rewrite py_record_short_len by lia. unfold py_fault, py_counts. cbn. lia.
    + rewrite py_record_short_index by lia. unfold py_fault, py_counts.
      cbn. lia.
Qed.

(** X5: the count that the pinyin loop reports is never below the number
    of keys of the mapping, and never above a quarter of the length of the
    sub-buffer: each record counted took at least its four header
    bytes. *)
Theorem pinyin_count_bounds (py_data : bytes) :
  ∃ s', parse_pinyin py_data init_locals = Ok () s' ∧
        size (py_table s') ≤ py_count s' ∧
        4 * py_count s' ≤ length py_data.
Proof.
  unfold parse_pinyin, py_loop.
  destruct (scan_loop_inv (py_counts (length py_data)) (py_record py_data)
              py_fault (length py_data) (py_record_counts py_data)
              (S (length py_data)) (set_pos 0 init_locals))
    as (s' & Hrun & [Hsize Hcount] & _); [cbn; lia|].
  exists s'. split; [done|]. cbn in Hsize, Hcount.
  rewrite map_size_empty in Hsize. lia.
Qed.

(** ** What the word loop appends and counts *)

Section triple_vals.
Variable I : locals → Prop.
Variable R : relation locals.
Context `{!PreOrder R}.
Hypothesis I_stable : ∀ s s', I s → R s s' → I s'.

Lemma triple_val_bind {A B} (Q : A → Prop) (m : exec A) (f : A → exec B) :
  triple_val I R Q m → (∀ a, Q a → triple I R (f a)) → triple I R (m ≫= f).
Proof.
  intros Hm Hf s Hs. rewrite exec_bind_unfold.
  specialize (Hm s Hs). destruct (m s) as [a s1|s1|]; [|done..].
  destruct Hm as [HR HQ].
  specialize (Hf a HQ s1 (I_stable _ _ Hs HR)).
  destruct (f a s1) as [b s2|s2|]; [by etrans..|done].
Qed.

Lemma triple_val_unpack_at data :
  triple_val I R (λ v, v < 256 * 256) (unpack_at data).
Proof.
  intros s _. unfold unpack_at.
  destruct (unpack_H _) as [v|] eqn:Hv; [|reflexivity].
  split; [reflexivity|]. by eapply unpack_H_lt.
Qed.

Lemma triple_val_byte2str_at data n :
  triple_val I R (Forall (λ c, c < 256 * 256)) (byte2str_at data n).
Proof.
  intros s _. rewrite byte2str_at_spec. split; [reflexivity|].
  apply Forall_forall. intros c. apply code_units_lt.
Qed.
End triple_vals.

#[global] Instance word_adds_preorder : PreOrder word_adds.
Proof.
  split.
  - intros s. unfold word_adds. split; [lia|]. do 3 (split; [done|]).
    exists []. by rewrite app_nil_r, Nat.add_0_r.
  - intros s1 s2 s3 (Hp1 & Ht1 & Hc1 & Hr1 & new1 & He1 & Hn1 & Hf1)
      (Hp2 & Ht2 & Hc2 & Hr2 & new2 & He2 & Hn2 & Hf2).
    unfold word_adds. split; [lia|]. do 3 (split; [congruence|]).
    exists (new1 ++ new2). rewrite He2, He1, Hn2, Hn1, length_app, app_assoc.
    split; [done|]. split; [lia|]. by apply Forall_app.
Qed.

Lemma word_adds_set_pos s p : pos s ≤ p → word_adds s (set_pos p s).
Proof.
  intros Hp. unfold word_adds. split; [done|]. do 3 (split; [done|]).
  exists []. by rewrite app_nil_r, Nat.add_0_r.
Qed.

Lemma word_ok_length word : word_ok word = true → 1 ≤ length word ≤ 8.
Proof.
  unfold word_ok. intros [_ H]%andb_prop. by apply bool_decide_eq_true in H.
Qed.

Lemma triple_read_words_adds data pinyin n :
  triple (λ _, True) word_adds (read_words data pinyin n).
Proof.
  assert (∀ s s' : locals, True → word_adds s s' → True) as Hst by done.
  pose proof word_adds_set_pos as Hsp.
  induction n as [|n IH]; cbn [read_words]; [apply triple_ret; apply _|].
  apply (triple_bind _ _ Hst); [apply triple_unpack_at; apply _|].
  intros word_len. apply (triple_bind _ _ Hst); [by apply triple_advance|].
  intros _. apply (triple_val_bind _ _ Hst _ _ _ (triple_val_byte2str_at _ _ _ _)).
  intros word Hword. apply (triple_bind _ _ Hst); [by apply triple_advance|].
  intros _. apply (triple_bind _ _ Hst); [apply triple_unpack_at; apply _|].
  intros ext_len. apply (triple_bind _ _ Hst); [by apply triple_advance|].
  intros _. apply (triple_val_bind _ _ Hst _ _ _ (triple_val_unpack_at _ _ _)).
  intros freq Hfreq. apply (triple_bind _ _ Hst); [by apply triple_advance|].
  intros _. apply (triple_bind _ _ Hst); [|intros _; apply IH].
  destruct (word_ok word) eqn:Hok; [|apply triple_ret; apply _].
  intros s _. cbn. unfold word_adds. cbn.
  split; [lia|]. do 3 (split; [done|]).
  exists [(word, pinyin, freq)]. split; [done|]. split; [done|].
  apply Forall_singleton. split; [by apply word_ok_length|done].
Qed.

Lemma triple_word_group_adds data :
  triple (λ _, True) word_adds (word_group data).
Proof.
  assert (∀ s s' : locals, True → word_adds s s' → True) as Hst by done.
  pose proof word_adds_set_pos as Hsp.
  unfold word_group.
  apply (triple_bind _ _ Hst); [apply triple_unpack_at; apply _|].
  intros same_count. apply (triple_bind _ _ Hst); [by apply triple_advance|].
  intros _. apply (triple_bind _ _ Hst); [apply triple_unpack_at; apply _|].
  intros py_table_len. apply (triple_bind _ _ Hst); [by apply triple_advance|].
  intros _.
  apply (triple_bind _ _ Hst); [apply (triple_read_indices _ _ Hst Hsp)|].
  intros py_indices. apply (triple_bind _ _ Hst).
  - intros s _. reflexivity.
  - intros [|p parts]; [by apply triple_advance|].
    apply triple_read_words_adds.
Qed.

#[global] Instance word_scans_preorder len : PreOrder (word_scans len).
Proof.
  split.
  - intros s. unfold word_scans. split; [lia|]. do 2 (split; [done|]).
    do 2 (split; [lia|]). exists []. by rewrite app_nil_r, Nat.add_0_r.
  - intros s1 s2 s3 (Hp1 & Ht1 & Hc1 & Hr1 & Hb1 & new1 & He1 & Hn1 & Hf1)
      (Hp2 & Ht2 & Hc2 & Hr2 & Hb2 & new2 & He2 & Hn2 & Hf2).
    unfold word_scans. split; [lia|]. do 2 (split; [congruence|]).
    do 2 (split; [lia|]).
    exists (new1 ++ new2). rewrite He2, He1, Hn2, Hn1, length_app, app_assoc.
    split; [done|]. split; [lia|]. by apply Forall_app.
Qed.

Lemma word_group_scans data s :
  pos s < length data →
  match word_group data s with
  | Ok _ s' => word_scans (length data) s s' ∧ pos s < pos s'
  | Raised s' =>
      word_scans (length data) s (word_fault s') ∧ pos s < pos (word_fault s')
  | NoFuel => False
  end.
Proof.
  intros Hlt. pose proof (word_group_round data s) as Hround.
  pose proof (triple_word_group_adds data s Logic.I) as Hadds.
  destruct (word_group data s) as [[] s'|s'|]; [| |done].
  - destruct Hround as [_ Hpos]. split; [|done].
    destruct Hadds as (Hp & Ht & Hc & Hr & Hnew).
    unfold word_scans. do 3 (split; [done|]). do 2 (split; [lia|]). done.
  - destruct Hround as [_ Hpos]. split; [|done].
    destruct Hadds as (Hp & Ht & Hc & Hr & Hnew).
    unfold word_scans, word_fault in *. cbn in *.
    split; [lia|]. do 2 (split; [done|]). do 2 (split; [lia|]). done.
Qed.

Lemma parse_words_scans chinese_data s :
  ∃ s', parse_words chinese_data s = Ok () s' ∧
        word_scans (length chinese_data) (set_pos 0 s) s'.
Proof.
  unfold parse_words, word_loop.
  destruct (scan_loop_inv (word_scans (length chinese_data))
              (word_group chinese_data) word_fault (length chinese_data)
              (word_group_scans chinese_data)
              (S (length chinese_data)) (set_pos 0 s))
    as (s' & Hrun & Hscan & _); [cbn; lia|].
  by exists s'.
Qed.

Lemma parse_scel_runs data :
  take 12 data = magic →
  ∃ s1 s2,
    parse_pinyin (drop start_py data) init_locals = Ok () s1 ∧
    parse_words (drop start_chinese data) s1 = Ok () s2 ∧
    parse_scel data = Ok (Some (entries s2)) s2.
Proof.
  intros Hm. unfold parse_scel, parse_tables.
  destruct (decide (take 12 data = magic)); [|done].
  rewrite exec_bind_unfold.
  destruct (parse_pinyin_total (drop start_py data) init_locals)
    as (s1 & H1 & _).
  destruct (parse_words_total (drop start_chinese data) s1) as (s2 & H2 & _).
  exists s1, s2. by rewrite H1, H2.
Qed.

Lemma parse_pinyin_entries py_data s s' :
  parse_pinyin py_data s = Ok () s' →
  entries s' = entries s ∧ entry_count s' = entry_count s ∧
  error_count s' = error_count s.
Proof.
  intros Hrun. destruct (parse_pinyin_total py_data s) as (s2 & H2 & Hk).
  rewrite Hrun in H2. injection H2 as <-.
  by destruct Hk as (_ & _ & ? & ? & ?).
Qed.

Lemma parse_scel_all_ok data :
  take 12 data = magic →
  ∃ l s, parse_scel data = Ok (Some l) s ∧ Forall entry_ok l.
Proof.
  intros (s1 & s2 & H1 & H2 & Hrun)%parse_scel_runs.
  exists (entries s2), s2. split; [done|].
  destruct (parse_words_scans (drop start_chinese data) s1)
    as (s' & Hs' & Hscan).
  rewrite H2 in Hs'. injection Hs' as <-.
  destruct Hscan as (_ & _ & _ & _ & _ & new & He & _ & Hall).
  apply parse_pinyin_entries in H1 as (He1 & _).
  cbn [set_pos entries] in He. by rewrite He, He1.
Qed.

(** X6: every entry that [parse_scel] returns has a word of one to eight
    characters, each of them a 16-bit unit, and a frequency below
    65536. *)
Theorem parse_scel_entries_ok (data : bytes) :
  take 12 data = magic →
  ∃ l s, parse_scel data = Ok (Some l) s ∧ Forall entry_ok l.
Proof. apply parse_scel_all_ok. Qed.

Lemma parse_scel_entries_ok_witness :
  ∃ l s, parse_scel empty_pinyin_file = Ok (Some l) s ∧ Forall entry_ok l.
Proof. apply (parse_scel_entries_ok empty_pinyin_file). reflexivity. Defined.

(** X7: the two counts that [parse_scel] prints for the word table: the
    count of valid entries is the number of entries returned, and the
    count of faults is at most the number of bytes from the word table
    offset to the end of the buffer. *)
Theorem parse_scel_counts (data : bytes) :
  take 12 data = magic →
  ∃ l s, parse_scel data = Ok (Some l) s ∧
         entry_count s = length l ∧
         error_count s ≤ length (drop start_chinese data).
Proof.
  intros (s1 & s2 & H1 & H2 & Hrun)%parse_scel_runs.
  exists (entries s2), s2. split; [done|].
  destruct (parse_words_scans (drop start_chinese data) s1)
    as (s' & Hs' & Hscan).
  rewrite H2 in Hs'. injection Hs' as <-.
  destruct Hscan as (_ & _ & _ & _ & Herr & new & He & Hn & _).
  apply parse_pinyin_entries in H1 as (He1 & Hn1 & Hr1).
  cbn [set_pos pos entries entry_count error_count] in He, Hn, Herr.
  rewrite He1 in He. rewrite Hn1 in Hn. rewrite Hr1 in Herr.
  cbn [init_locals entries entry_count error_count app] in He, Hn, Herr.
  rewrite He, Hn. split; lia.
Qed.

Lemma parse_scel_counts_witness :
  ∃ l s, parse_scel empty_pinyin_file = Ok (Some l) s ∧
         entry_count s = length l ∧
         error_count s ≤ length (drop start_chinese empty_pinyin_file).
Proof. apply (parse_scel_counts empty_pinyin_file). reflexivity. Defined.

(** X8: the word loop only reads the mapping: the mapping and the pinyin
    count that [parse_scel] ends with are those the pinyin loop left. *)
Theorem word_loop_keeps_mapping (data : bytes) :
  take 12 data = magic →
  ∃ l s s1, parse_scel data = Ok (Some l) s ∧
            parse_pinyin (drop start_py data) init_locals = Ok () s1 ∧
            py_table s = py_table s1 ∧ py_count s = py_count s1.
Proof.
  intros (s1 & s2 & H1 & H2 & Hrun)%parse_scel_runs.
  exists (entries s2), s2, s1. do 2 (split; [done|]).
  destruct (parse_words_scans (drop start_chinese data) s1)
    as (s' & Hs' & Hscan).
  rewrite H2 in Hs'. injection Hs' as <-.
  by destruct Hscan as (_ & Ht & Hc & _).
Qed.

Lemma word_loop_keeps_mapping_witness :
  ∃ l s s1, parse_scel empty_pinyin_file = Ok (Some l) s ∧
            parse_pinyin (drop start_py empty_pinyin_file) init_locals
            = Ok () s1 ∧
            py_table s = py_table s1 ∧ py_count s = py_count s1.
Proof. apply (word_loop_keeps_mapping empty_pinyin_file). reflexivity. Defined.

(** X9: a buffer with the magic that ends at or before the word table
    offset gives the empty list of entries, whatever its pinyin table
    holds. *)
Theorem truncated_file_no_entries (data : bytes) :
  take 12 data = magic → length data ≤ start_chinese →
  ∃ s, parse_scel data = Ok (Some []) s.
Proof.
  intros (s1 & s2 & H1 & H2 & Hrun)%parse_scel_runs Hlen.
  exists s2. rewrite Hrun. do 2 f_equal.
  rewrite drop_ge in H2 by done. cbn in H2. injection H2 as <-. cbn.
  by apply parse_pinyin_entries in H1 as (-> & _).
Qed.

Lemma truncated_file_no_entries_witness :
  ∃ s, parse_scel (magic ++ [x01; x00]) = Ok (Some []) s.
Proof.
  apply (truncated_file_no_entries (magic ++ [x01; x00])); [reflexivity|].
  apply Nat.leb_le. vm_compute. reflexivity.
Defined.

(** ** Well-formed word records and groups *)

Lemma read_words_step data pinyin n s wl_lo wl_hi w el_lo el_hi f_lo f_hi tail :
  drop (pos s) data =
    wl_lo :: wl_hi :: w ++ el_lo :: el_hi :: f_lo :: f_hi :: tail →
  length w = u16 wl_lo wl_hi →
  read_words data pinyin (S n) s =
  read_words data pinyin n
    (word_read (code_units w) pinyin (u16 f_lo f_hi)
       (4 + length w + u16 el_lo el_hi) s).
Proof.
  intros Hd Hw.
  assert (drop (pos s + 2) data =
          w ++ el_lo :: el_hi :: f_lo :: f_hi :: tail) as H2
    by (by rewrite <- drop_drop, Hd).
  assert (drop (pos s + 2 + u16 wl_lo wl_hi) data =
          el_lo :: el_hi :: f_lo :: f_hi :: tail) as H3
    by (rewrite <- drop_drop, H2; by apply drop_past).
  assert (drop (pos s + 2 + u16 wl_lo wl_hi + 2) data = f_lo :: f_hi :: tail)
    as H4 by (by rewrite <- drop_drop, H3).
  cbn [read_words].
  rewrite exec_bind_unfold, (unpack_at_drop _ _ _ _ _ Hd).
  rewrite exec_bind_unfold. cbn [advance].
  rewrite exec_bind_unfold, byte2str_at_spec. cbn [pos set_pos].
  rewrite H2, take_app_length' by done.
  rewrite exec_bind_unfold. cbn [advance pos set_pos].
  rewrite exec_bind_unfold.
  rewrite (unpack_at_drop _ _ el_lo el_hi (f_lo :: f_hi :: tail))
    by (cbn [pos set_pos]; exact H3).
  rewrite exec_bind_unfold. cbn [advance pos set_pos].
  rewrite exec_bind_unfold.
  rewrite (unpack_at_drop _ _ f_lo f_hi tail) by (cbn [pos set_pos]; exact H4).
  rewrite exec_bind_unfold. cbn [advance pos set_pos].
  rewrite exec_bind_unfold. unfold word_read.
  destruct (word_ok (code_units w));
    unfold append_entry, set_entry_count, set_entries, set_pos; cbn;
    do 2 f_equal; lia.
Qed.

(** X10: one word record.  The frequency is the 16-bit value that
    follows the length of the extension block, whatever that length is,
    and the cursor then moves on by that length: if it is 0 the two bytes
    of the frequency are not passed, and if it is larger than what is left
    the cursor ends past the end of the buffer, without a fault.  The
    tuple is appended when the word has one to eight characters. *)
Theorem word_record_read (data : bytes) (pinyin : str) (s : locals)
    (wl_lo wl_hi el_lo el_hi f_lo f_hi : byte) (w tail : bytes) :
  drop (pos s) data =
    wl_lo :: wl_hi :: w ++ el_lo :: el_hi :: f_lo :: f_hi :: tail →
  length w = u16 wl_lo wl_hi →
  read_words data pinyin 1 s =
  Ok () (word_read (code_units w) pinyin (u16 f_lo f_hi)
           (4 + length w + u16 el_lo el_hi) s).
Proof.
  intros Hd Hw. by rewrite (read_words_step _ _ _ _ _ _ _ _ _ _ _ _ Hd Hw).
Qed.

Lemma word_record_read_witness :
  read_words [x02; x00; x41; x00; x00; x00; x05; x00] [110] 1 init_locals =
  Ok () (Locals 6 ∅ 0 [([65], [110], 5)] 1 0).
Proof.
  exact (word_record_read [x02; x00; x41; x00; x00; x00; x05; x00] [110]
           init_locals x02 x00 x00 x00 x05 x00 [x41; x00] [] eq_refl eq_refl).
Defined.

Lemma kept_entries_cons pinyin r rs :
  kept_entries pinyin (r :: rs) =
  (if word_ok (code_units (wr_text r))
   then [word_rec_entry pinyin r] else []) ++ kept_entries pinyin rs.
Proof.
  unfold kept_entries. cbn [fmap list_fmap]. rewrite filter_cons.
  change (word_of (word_rec_entry pinyin r)) with (code_units (wr_text r)).
  case_decide as Hok; [by rewrite Hok|].
  by destruct (word_ok (code_units (wr_text r))).
Qed.

Lemma read_words_records rs : ∀ data pinyin s tail,
  Forall word_rec_wf rs →
  drop (pos s) data = concat (word_rec_bytes <$> rs) ++ tail →
  read_words data pinyin (length rs) s =
  Ok () (Locals (pos s + length (concat (word_rec_bytes <$> rs)))
           (py_table s) (py_count s)
           (entries s ++ kept_entries pinyin rs)
           (entry_count s + length (kept_entries pinyin rs))
           (error_count s)).
Proof.
  induction rs as [|r rs IH]; intros data pinyin s tail Hwf Hd.
  - cbn. rewrite app_nil_r, !Nat.add_0_r. by destruct s.
  - apply Forall_cons in Hwf as [[Hw Hext] Hwf].
    destruct r as [[wl_lo wl_hi] w [el_lo el_hi] [f_lo f_hi] ext].
    cbn [wr_len wr_text wr_ext_len wr_freq wr_ext fst snd] in Hw, Hext.
    assert (drop (pos s) data =
            wl_lo :: wl_hi :: w ++ el_lo :: el_hi :: f_lo :: f_hi ::
            (ext ++ concat (word_rec_bytes <$> rs) ++ tail)) as Hd'.
    { rewrite Hd. cbn. unfold word_rec_bytes at 1. cbn.
      by rewrite <- !app_assoc. }
    cbn [length]. rewrite (read_words_step _ _ _ _ _ _ _ _ _ _ _ _ Hd' Hw).
    rewrite (IH _ _ _ tail Hwf).
    + rewrite kept_entries_cons. cbn [wr_text].
      cbn [pos py_table py_count entries entry_count error_count word_read].
      cbn [fmap list_fmap concat]. rewrite !length_app.
      assert (length (word_rec_bytes
                (WordRec (wl_lo, wl_hi) w (el_lo, el_hi) (f_lo, f_hi) ext)) =
              4 + length w + u16 el_lo el_hi) as ->.
      { unfold word_rec_bytes. cbn. rewrite length_app. cbn. lia. }
      destruct (word_ok (code_units w)); cbn [app length];
        rewrite <- ?app_assoc; f_equal; f_equal; try lia; done.
    + cbn [pos word_read].
      replace (pos s + (4 + length w + u16 el_lo el_hi))
        with (pos s + (2 + length w + 4 + length ext)) by lia.
      rewrite <- drop_drop, Hd'.
      replace (wl_lo :: wl_hi :: w ++ el_lo :: el_hi :: f_lo :: f_hi ::
               ext ++ concat (word_rec_bytes <$> rs) ++ tail)
        with ((wl_lo :: wl_hi :: w ++ el_lo :: el_hi :: f_lo :: f_hi :: ext)
              ++ concat (word_rec_bytes <$> rs) ++ tail)
        by (cbn; by rewrite <- !app_assoc).
      apply drop_past. cbn. rewrite length_app. cbn. lia.
Qed.

(** X11: a well-formed group of which at least one index is in the
    mapping.  [a b] are the bytes of [same_count], [c d] those of the
    length of the index table [idx], and [rs] the [same_count] word
    records.  The round raises no fault and leaves the cursor at the end
    of the group; for every record whose word has one to eight characters
    it appends, in order, the word, the single-space join of the strings
    found for the indices, in index order, the indices not in the mapping
    being left out, and the frequency. *)
Theorem word_group_decodes (data : bytes) (s : locals) (a b c d : byte)
    (idx : bytes) (rs : list word_rec) (tail : bytes) :
  drop (pos s) data =
    [a; b; c; d] ++ idx ++ concat (word_rec_bytes <$> rs) ++ tail →
  length idx = 2 * (u16 c d / 2) →
  length rs = u16 a b →
  Forall word_rec_wf rs →
  resolve (py_table s) (code_units idx) ≠ [] →
  word_group data s =
  Ok () (Locals
           (pos s + 4 + length idx + length (concat (word_rec_bytes <$> rs)))
           (py_table s) (py_count s)
           (entries s ++
            kept_entries (join space (resolve (py_table s) (code_units idx)))
              rs)
           (entry_count s +
            length (kept_entries
                      (join space (resolve (py_table s) (code_units idx)))
                      rs))
           (error_count s)).
Proof.
  intros Hd Hidx Hrs Hwf Hres. cbn [app] in Hd.
  assert (drop (pos s + 2 + 2) data =
          idx ++ concat (word_rec_bytes <$> rs) ++ tail) as Hd4
    by (by rewrite <- !drop_drop, Hd).
  assert (length data = pos s + 4 + length (idx ++
            concat (word_rec_bytes <$> rs) ++ tail)) as Hlen.
  { pose proof (length_drop data (pos s)) as Hl. rewrite Hd in Hl.
    cbn [length] in Hl. pose proof (drop_cons_length _ _ _ _ Hd). lia. }
  rewrite length_app in Hlen.
  unfold word_group.
  rewrite exec_bind_unfold, (unpack_at_drop _ _ _ _ _ Hd).
  rewrite exec_bind_unfold. cbn [advance]. rewrite exec_bind_unfold.
  rewrite (unpack_at_drop _ _ c d
             (idx ++ concat (word_rec_bytes <$> rs) ++ tail))
    by (cbn [pos set_pos]; by rewrite <- drop_drop, Hd).
  rewrite exec_bind_unfold. cbn [advance]. rewrite exec_bind_unfold.
  rewrite read_indices_ok by (cbn [pos set_pos]; lia).
  cbn [pos set_pos app]. rewrite exec_bind_unfold. cbn beta iota.
  rewrite Hd4, <- Hidx, take_app_length. cbn [py_table set_pos].
  destruct (resolve (py_table s) (code_units idx)) as [|p parts] eqn:Hparts;
    [done|].
  rewrite <- Hrs.
  rewrite (read_words_records rs _ _ _ tail Hwf).
  - cbn. do 2 f_equal. lia.
  - cbn [pos set_pos]. rewrite <- drop_drop, Hd4. by apply drop_past.
Qed.

Lemma word_group_decodes_witness :
  word_group
    [x01; x00; x04; x00; x01; x00; x09; x00;
     x02; x00; x41; x00; x02; x00; x05; x00]
    (set_py_table {[1 := [110; 105]]} init_locals) =
  Ok () (Locals 16 {[1 := [110; 105]]} 0 [([65], [110; 105], 5)] 1 0).
Proof.
  assert (Forall word_rec_wf [WordRec (x02, x00) [x41; x00] (x02, x00)
                                (x05, x00) []]) as Hwf
    by (repeat constructor).
  refine (word_group_decodes _ (set_py_table {[1 := [110; 105]]} init_locals)
            x01 x00 x04 x00 [x01; x00; x09; x00]
            [WordRec (x02, x00) [x41; x00] (x02, x00) (x05, x00) []] []
            eq_refl eq_refl eq_refl Hwf _).
  vm_compute. intros H. discriminate H.
Defined.

(** ** More on the filter and the sort *)

Section sort_desc_more.
Context {A : Type} (key : A → nat).

Lemma insert_desc_front x l :
  HdRel (λ a b, key b ≤ key a) x l → insert_desc key x l = x :: l.
Proof.
  intros Hhd. destruct l as [|y l]; [done|]. cbn [insert_desc].
  apply HdRel_inv in Hhd. by rewrite decide_True.
Qed.

Lemma sort_desc_sorted_id l :
  Sorted (λ a b, key b ≤ key a) l → sort_desc key l = l.
Proof.
  induction 1 as [|x l Hs IH Hhd]; [done|].
  unfold sort_desc in *. cbn [foldr]. rewrite IH.
  by apply insert_desc_front.
Qed.

Lemma insert_desc_filter (P : A → Prop) `{!∀ a, Decision (P a)} x l :
  StronglySorted (λ a b, key b ≤ key a) l →
  filter P (insert_desc key x l) =
  if decide (P x) then insert_desc key x (filter P l) else filter P l.
Proof.
  induction 1 as [|y l Hs IH Hall]; cbn [insert_desc].
  - rewrite filter_cons, filter_nil. by destruct (decide (P x)).
  - destruct (decide (key y ≤ key x)) as [Hle|Hgt].
    + rewrite filter_cons. destruct (decide (P x)) as [HPx|HPx]; [|done].
      symmetry. apply insert_desc_front.
      assert (Forall (λ z, key z ≤ key x) (filter P (y :: l))) as Hall'.
      { apply Forall_forall. intros z [_ Hz]%list_elem_of_filter.
        apply elem_of_cons in Hz as [->|Hz]; [done|].
        rewrite Forall_forall in Hall. specialize (Hall z Hz).
        cbn in Hall. lia. }
      destruct (filter P (y :: l)) as [|z l']; constructor.
      by apply Forall_cons in Hall' as [? _].
    + rewrite !filter_cons, IH.
      destruct (decide (P y)) as [HPy|HPy];
        destruct (decide (P x)) as [HPx|HPx]; try done.
      cbn [insert_desc]. by rewrite decide_False.
Qed.

Lemma sort_desc_strongly_sorted l :
  StronglySorted (λ a b, key b ≤ key a) (sort_desc key l).
Proof.
  apply Sorted_StronglySorted; [|apply sort_desc_sorted].
  intros a b c Hab Hbc. cbn in *. lia.
Qed.

Lemma sort_desc_filter (P : A → Prop) `{!∀ a, Decision (P a)} l :
  filter P (sort_desc key l) = sort_desc key (filter P l).
Proof.
  induction l as [|x l IH]; [done|].
  rewrite filter_cons. unfold sort_desc in *. cbn [foldr].
  rewrite insert_desc_filter by apply sort_desc_strongly_sorted.
  destruct (decide (P x)); [|done]. cbn [foldr]. by rewrite IH.
Qed.
End sort_desc_more.

Lemma filter_Forall_id {A} (P : A → Prop) `{!∀ a, Decision (P a)} l :
  Forall P l → filter P l = l.
Proof.
  induction 1 as [|x l HP _ IH]; [done|].
  by rewrite filter_cons_True, IH.
Qed.

(** X12: the list [filtered_entries] after the sort holds the entries
    that pass the filter, in another order: the sort loses, doubles and
    makes up none, so the length that the header reports as the filtered
    count is the number of entries that pass the filter, and at most the
    number of entries. *)
Theorem rows_are_filtered_entries (l : list entry)
    (min_freq min_length max_length : Z) :
  generate_rime_yaml l min_freq min_length max_length ≡ₚ
    filter_entries min_freq min_length max_length l ∧
  length (generate_rime_yaml l min_freq min_length max_length) =
    length (filter_entries min_freq min_length max_length l) ∧
  length (generate_rime_yaml l min_freq min_length max_length) ≤ length l.
Proof.
  assert (generate_rime_yaml l min_freq min_length max_length ≡ₚ
          filter_entries min_freq min_length max_length l) as Hperm
    by apply sort_desc_perm.
  split; [done|]. rewrite Hperm. split; [done|]. apply length_filter.
Qed.

(** X13: the rows are a fixed point: given back as entries under the
    same thresholds, they come out unchanged. *)
Theorem generate_rime_yaml_idempotent (l : list entry)
    (min_freq min_length max_length : Z) :
  generate_rime_yaml (generate_rime_yaml l min_freq min_length max_length)
    min_freq min_length max_length =
  generate_rime_yaml l min_freq min_length max_length.
Proof.
  unfold generate_rime_yaml at 1, filter_entries at 1.
  rewrite filter_Forall_id.
  - apply sort_desc_sorted_id, sort_desc_sorted.
  - unfold generate_rime_yaml. rewrite sort_desc_perm.
    apply Forall_forall. intros e He.
    by apply list_elem_of_filter in He as [Hk _].
Qed.

(** X14: filtering commutes with the sort: the sorted filtered list
    for thresholds that are at least as strict is the sorted filtered list
    for the looser ones, filtered by the stricter test, in the same
    order. *)
Theorem stricter_thresholds_filter_rows (l : list entry)
    (min_freq min_length max_length min_freq' min_length' max_length' : Z) :
  (min_freq ≤ min_freq')%Z → (min_length ≤ min_length')%Z →
  (max_length' ≤ max_length)%Z →
  generate_rime_yaml l min_freq' min_length' max_length' =
  filter (keeps min_freq' min_length' max_length')
    (generate_rime_yaml l min_freq min_length max_length).
Proof.
  intros Hf Hmin Hmax. unfold generate_rime_yaml, filter_entries.
  rewrite sort_desc_filter. f_equal. symmetry.
  apply list_filter_filter_l. unfold keeps. intros e. lia.
Qed.

Lemma stricter_thresholds_filter_rows_witness :
  generate_rime_yaml [([65], [97], 3); ([66; 67], [98], 7); ([68], [99], 0)]
    5 1 4 =
  filter (keeps 5 1 4)
    (generate_rime_yaml
       [([65], [97], 3); ([66; 67], [98], 7); ([68], [99], 0)] 1 1 8).
Proof.
  apply (stricter_thresholds_filter_rows
           [([65], [97], 3); ([66; 67], [98], 7); ([68], [99], 0)]
           1 1 8 5 1 4); lia.
Defined.

Lemma filter_entries_default l :
  Forall entry_ok l →
  filter_entries 1 1 8 l = filter (λ e, 0 < freq_of e) l.
Proof.
  induction 1 as [|e l (Hlen & _ & _) _ IH]; [done|].
  unfold filter_entries in *. rewrite !filter_cons, IH.
  destruct (decide (keeps 1 1 8 e)) as [Hk|Hk];
    destruct (decide (0 < freq_of e)) as [Hf|Hf]; try done;
    unfold keeps in Hk; lia.
Qed.

(** X15: with the thresholds that [main] uses when no option is given,
    freq 1 and lengths 1 to 8, the filter drops from what [parse_scel]
    returns the entries of frequency 0 and nothing else: the length test
    never fails on them. *)
Theorem default_thresholds_drop_zero_freq (data : bytes) :
  take 12 data = magic →
  ∃ l s, parse_scel data = Ok (Some l) s ∧
         generate_rime_yaml l 1 1 8 =
           sort_desc freq_of (filter (λ e, 0 < freq_of e) l).
Proof.
  intros Hm. destruct (parse_scel_all_ok data Hm) as (l & s & Hrun & Hok).
  exists l, s. split; [done|].
  unfold generate_rime_yaml. by rewrite filter_entries_default.
Qed.

Lemma default_thresholds_drop_zero_freq_witness :
  ∃ l s, parse_scel empty_pinyin_file = Ok (Some l) s ∧
         generate_rime_yaml l 1 1 8 =
           sort_desc freq_of (filter (λ e, 0 < freq_of e) l).
Proof.
  apply (default_thresholds_drop_zero_freq empty_pinyin_file). reflexivity.
Defined.

(** ** A group that is cut short *)

Lemma read_words_records_more rs : ∀ data pinyin s tail m,
  Forall word_rec_wf rs →
  drop (pos s) data = concat (word_rec_bytes <$> rs) ++ tail →
  read_words data pinyin (length rs + m) s =
  read_words data pinyin m
    (Locals (pos s + length (concat (word_rec_bytes <$> rs)))
       (py_table s) (py_count s)
       (entries s ++ kept_entries pinyin rs)
       (entry_count s + length (kept_entries pinyin rs))
       (error_count s)).
Proof.
  induction rs as [|r rs IH]; intros data pinyin s tail m Hwf Hd.
  - cbn. rewrite app_nil_r, !Nat.add_0_r. by destruct s.
  - apply Forall_cons in Hwf as [[Hw Hext] Hwf].
    destruct r as [[wl_lo wl_hi] w [el_lo el_hi] [f_lo f_hi] ext].
    cbn [wr_len wr_text wr_ext_len wr_freq wr_ext fst snd] in Hw, Hext.
    assert (drop (pos s) data =
            wl_lo :: wl_hi :: w ++ el_lo :: el_hi :: f_lo :: f_hi ::
            (ext ++ concat (word_rec_bytes <$> rs) ++ tail)) as Hd'.
    { rewrite Hd. cbn. unfold word_rec_bytes at 1. cbn.
      by rewrite <- !app_assoc. }
    cbn [length Nat.add].
    rewrite (read_words_step _ _ _ _ _ _ _ _ _ _ _ _ Hd' Hw).
    rewrite (IH _ _ _ tail m Hwf).
    + rewrite kept_entries_cons. cbn [wr_text].
      cbn [pos py_table py_count entries entry_count error_count word_read].
      cbn [fmap list_fmap concat]. rewrite !length_app.
      assert (length (word_rec_bytes
                (WordRec (wl_lo, wl_hi) w (el_lo, el_hi) (f_lo, f_hi) ext)) =
              4 + length w + u16 el_lo el_hi) as ->.
      { unfold word_rec_bytes. cbn. rewrite length_app. cbn. lia. }
      destruct (word_ok (code_units w)); cbn [app length];
        rewrite <- ?app_assoc; f_equal; f_equal; try lia; done.
    + cbn [pos word_read].
      replace (pos s + (4 + length w + u16 el_lo el_hi))
        with (pos s + (2 + length w + 4 + length ext)) by lia.
      rewrite <- drop_drop, Hd'.
      replace (wl_lo :: wl_hi :: w ++ el_lo :: el_hi :: f_lo :: f_hi ::
               ext ++ concat (word_rec_bytes <$> rs) ++ tail)
        with ((wl_lo :: wl_hi :: w ++ el_lo :: el_hi :: f_lo :: f_hi :: ext)
              ++ concat (word_rec_bytes <$> rs) ++ tail)
        by (cbn; by rewrite <- !app_assoc).
      apply drop_past. cbn. rewrite length_app. cbn. lia.
Qed.

(** X16: a group whose [same_count] promises more word records than the
    buffer holds.  After the records [rs] that are there, fewer than two
    bytes are left and the next read raises: the entries of [rs] appended
    so far stay in [entries] and stay counted, [error_count] grows by
    one, the cursor moves one byte on from the end of the last record,
    and the scan stops there. *)
Theorem cut_group_keeps_entries (data : bytes) (s : locals) (a b c d : byte)
    (idx : bytes) (rs : list word_rec) (tail : bytes) (fuel : nat) :
  drop (pos s) data =
    [a; b; c; d] ++ idx ++ concat (word_rec_bytes <$> rs) ++ tail →
  length idx = 2 * (u16 c d / 2) →
  length rs < u16 a b →
  length tail < 2 →
  Forall word_rec_wf rs →
  resolve (py_table s) (code_units idx) ≠ [] →
  word_loop (S fuel) data s =
  Ok () (Locals
           (pos s + 4 + length idx + length (concat (word_rec_bytes <$> rs))
            + 1)
           (py_table s) (py_count s)
           (entries s ++
            kept_entries (join space (resolve (py_table s) (code_units idx)))
              rs)
           (entry_count s +
            length (kept_entries
                      (join space (resolve (py_table s) (code_units idx)))
                      rs))
           (error_count s + 1)).
Proof.
  intros Hd Hidx Hrs Htail Hwf Hres. cbn [app] in Hd.
  assert (drop (pos s + 2 + 2) data =
          idx ++ concat (word_rec_bytes <$> rs) ++ tail) as Hd4
    by (by rewrite <- !drop_drop, Hd).
  assert (length data = pos s + 4 + length (idx ++
            concat (word_rec_bytes <$> rs) ++ tail)) as Hlen.
  { pose proof (length_drop data (pos s)) as Hl. rewrite Hd in Hl.
    cbn [length] in Hl. pose proof (drop_cons_length _ _ _ _ Hd). lia. }
  rewrite !length_app in Hlen.
  set (pinyin := join space (resolve (py_table s) (code_units idx))).
  set (s' := Locals
               (pos s + 4 + length idx +
                length (concat (word_rec_bytes <$> rs)))
               (py_table s) (py_count s)
               (entries s ++ kept_entries pinyin rs)
               (entry_count s + length (kept_entries pinyin rs))
               (error_count s)).
  assert (word_group data s = Raised s') as Hgroup.
  { unfold word_group.
    rewrite exec_bind_unfold, (unpack_at_drop _ _ _ _ _ Hd).
    rewrite exec_bind_unfold. cbn [advance]. rewrite exec_bind_unfold.
    rewrite (unpack_at_drop _ _ c d
               (idx ++ concat (word_rec_bytes <$> rs) ++ tail))
      by (cbn [pos set_pos]; by rewrite <- drop_drop, Hd).
    rewrite exec_bind_unfold. cbn [advance]. rewrite exec_bind_unfold.
    rewrite read_indices_ok by (cbn [pos set_pos]; lia).
    cbn [pos set_pos app]. rewrite exec_bind_unfold. cbn beta iota.
    rewrite Hd4, <- Hidx, take_app_length. cbn [py_table set_pos].
    fold pinyin.
    destruct (resolve (py_table s) (code_units idx)) as [|p parts] eqn:Hparts;
      [done|].
    replace (u16 a b) with (length rs + S (u16 a b - length rs - 1)) by lia.
    rewrite (read_words_records_more rs _ _ _ tail _ Hwf)
      by (cbn [pos set_pos]; rewrite <- drop_drop, Hd4; by apply drop_past).
    cbn [read_words]. rewrite exec_bind_unfold.
    rewrite unpack_at_short by (cbn; lia).
    unfold s'. cbn. do 2 f_equal. lia. }
  unfold word_loop.
  rewrite (scan_loop_fault _ _ _ _ _ _ (drop_cons_length _ _ _ _ Hd) Hgroup).
  rewrite decide_True by (unfold s', word_fault; cbn; lia).
  done.
Qed.

Lemma cut_group_keeps_entries_witness :
  word_loop 1
    [x02; x00; x02; x00; x01; x00;
     x02; x00; x41; x00; x02; x00; x05; x00; x02]
    (set_py_table {[1 := [110; 105]]} init_locals) =
  Ok () (Locals 15 {[1 := [110; 105]]} 0 [([65], [110; 105], 5)] 1 1).
Proof.
  assert (Forall word_rec_wf [WordRec (x02, x00) [x41; x00] (x02, x00)
                                (x05, x00) []]) as Hwf
    by (repeat constructor).
  refine (cut_group_keeps_entries _
            (set_py_table {[1 := [110; 105]]} init_locals)
            x02 x00 x02 x00 [x01; x00]
            [WordRec (x02, x00) [x41; x00] (x02, x00) (x05, x00) []] [x02] 0
            eq_refl eq_refl _ _ Hwf _).
  - vm_compute. lia.
  - cbn. lia.
  - vm_compute. intros H. discriminate H.
Defined.

(** ** [main] *)

Lemma parse_scel_returns data : ∃ r s, parse_scel data = Ok r s.
Proof.
  destruct (decide (take 12 data = magic)) as [Hm|Hm].
  - destruct (parse_scel_runs data Hm) as (s1 & s2 & _ & _ & Hrun). eauto.
  - unfold parse_scel. rewrite decide_False by done. eauto.
Qed.

Lemma main_checks_fail input_file output_file freq min_length max_length
    file_exists content :
  ¬ args_ok input_file output_file file_exists →
  main input_file output_file freq min_length max_length file_exists content =
  Some (SysExit 1).
Proof.
  intros Hbad. unfold main.
  destruct input_file as [i|], output_file as [o|]; try done.
  destruct (bool_decide (i = [])) eqn:Hi; [done|].
  destruct (bool_decide (o = [])) eqn:Ho; [done|]. cbn [orb].
  destruct file_exists; [|done]. cbn [negb].
  unfold endswith. destruct (bool_decide (dot_scel `suffix_of` i)) eqn:Hs;
    [|done].
  destruct Hbad. exists i, o.
  apply bool_decide_eq_false in Hi, Ho. apply bool_decide_eq_true in Hs.
  done.
Qed.

Lemma main_checks_pass input_file output_file freq min_length max_length
    file_exists content :
  args_ok input_file output_file file_exists →
  main input_file output_file freq min_length max_length file_exists content =
  match content with
  | None => Some Uncaught
  | Some data =>
      match parse_scel data with
      | Ok (Some (e :: l)) _ =>
          Some (Generated
                  (generate_rime_yaml (e :: l) freq min_length max_length))
      | Ok _ _ => Some NotParsed
      | _ => None
      end
  end.
Proof.
  intros (i & o & -> & -> & Hi & Ho & -> & Hs). unfold main, endswith.
  by rewrite !bool_decide_eq_false_2, bool_decide_eq_true_2 by done.
Qed.

Lemma args_ok_cases input_file output_file file_exists :
  args_ok input_file output_file file_exists ∨
  ¬ args_ok input_file output_file file_exists.
Proof.
  destruct input_file as [i|], output_file as [o|];
    try (right; by intros (? & ? & ? & ? & _)).
  destruct (decide (i = [])) as [->|Hi];
    [right; intros (? & ? & [= <-] & _ & ? & _); done|].
  destruct (decide (o = [])) as [->|Ho];
    [right; intros (? & ? & _ & [= <-] & _ & ? & _); done|].
  destruct file_exists;
    [|right; intros (? & ? & _ & _ & _ & _ & ? & _); done].
  destruct (decide (dot_scel `suffix_of` i)) as [Hs|Hs];
    [|right; intros (? & ? & [= <-] & _ & _ & _ & _ & ?); done].
  left. by exists i, o.
Qed.

(** X17: [main], once [parse_args] has returned and as long as printing
    does not fail, always comes to an end.  It ends by [sys.exit(1)] when
    one of the checks made before the file is read fails: an argument is
    missing or empty, the input file does not exist, or its name does not
    end in [.scel].  When they all pass it never calls [sys.exit]: if
    opening or reading the file raises, the exception leaves [main]
    uncaught; if the file is read, [main] returns, also when the file
    could not be parsed. *)
Theorem main_exit (input_file output_file : option str)
    (freq min_length max_length : Z) (file_exists : bool)
    (content : option bytes) :
  ∃ r, main input_file output_file freq min_length max_length file_exists
         content = Some r ∧
       (¬ args_ok input_file output_file file_exists → r = SysExit 1) ∧
       (args_ok input_file output_file file_exists →
        content = None → r = Uncaught) ∧
       (args_ok input_file output_file file_exists →
        ∀ data, content = Some data →
                r = NotParsed ∨ ∃ rows, r = Generated rows).
Proof.
  destruct (args_ok_cases input_file output_file file_exists)
    as [Hok|Hbad].
  2:{ exists (SysExit 1). split; [by apply main_checks_fail|]. done. }
  rewrite (main_checks_pass _ _ _ _ _ _ _ Hok).
  destruct content as [data|].
  - destruct (parse_scel_returns data) as (r & s & ->).
    destruct r as [[|e l]|]; eexists; (split; [done|]);
      (split; [done|]); (split; [done|]); intros _ data' _; eauto.
  - exists Uncaught. split; [done|]. split; [done|]. split; [done|].
    intros _ data [=].
Qed.

Lemma main_exit_witness :
  (∃ r, main (Some [97; 46; 115; 99; 101; 108]) (Some [98]) 1 1 8 true
          (Some [x00]) = Some r ∧
        (r = NotParsed ∨ ∃ rows, r = Generated rows)) ∧
  (∃ r, main (Some [97; 46; 115; 99; 101; 108]) (Some [98]) 1 1 8 true
          None = Some r ∧ r = Uncaught) ∧
  (∃ r, main (Some [97]) (Some [98]) 1 1 8 true (Some [x00]) = Some r ∧
        r = SysExit 1).
Proof.
  assert (args_ok (Some [97; 46; 115; 99; 101; 108]) (Some [98]) true)
    as Hok.
  { exists [97; 46; 115; 99; 101; 108], [98].
    repeat split; try discriminate. by exists [97]. }
  split; [|split].
  - destruct (main_exit (Some [97; 46; 115; 99; 101; 108]) (Some [98])
                1 1 8 true (Some [x00])) as (r & Hr & _ & _ & Hread).
    exists r. split; [exact Hr|]. by apply (Hread Hok [x00]).
  - destruct (main_exit (Some [97; 46; 115; 99; 101; 108]) (Some [98])
                1 1 8 true None) as (r & Hr & _ & Hnone & _).
    exists r. split; [exact Hr|]. by apply Hnone.
  - destruct (main_exit (Some [97]) (Some [98]) 1 1 8 true (Some [x00]))
      as (r & Hr & Hbad & _).
    exists r. split; [exact Hr|]. apply Hbad.
    intros (i & o & [= <-] & _ & _ & _ & _ & (k & Hk)).
    apply (f_equal length) in Hk. rewrite length_app in Hk. cbn in Hk. lia.
Defined.

(** X18: when the checks pass and the file that is read either does not
    start with the magic or ends at or before the word table offset,
    [main] does not call [generate_rime_yaml]: no output file is written.
    An empty list of entries is treated like a failed parse. *)
Theorem main_writes_nothing (input_file output_file : option str)
    (freq min_length max_length : Z) (file_exists : bool) (data : bytes) :
  args_ok input_file output_file file_exists →
  take 12 data ≠ magic ∨ length data ≤ start_chinese →
  main input_file output_file freq min_length max_length file_exists
    (Some data) =
  Some NotParsed.
Proof.
  intros Hok Hdata. rewrite (main_checks_pass _ _ _ _ _ _ _ Hok).
  destruct (decide (take 12 data = magic)) as [Hm|Hm].
  - destruct Hdata as [?|Hlen]; [done|].
    destruct (parse_scel_runs data Hm) as (s1 & s2 & H1 & H2 & ->).
    rewrite drop_ge in H2 by done. cbn in H2. injection H2 as <-.
    cbn [entries set_pos].
    by apply parse_pinyin_entries in H1 as (-> & _).
  - unfold parse_scel. by rewrite decide_False.
Qed.

Lemma main_writes_nothing_witness :
  main (Some [97; 46; 115; 99; 101; 108]) (Some [98]) 1 1 8 true
    (Some [x00]) =
  Some NotParsed.
Proof.
  apply (main_writes_nothing (Some [97; 46; 115; 99; 101; 108]) (Some [98])
           1 1 8 true [x00]).
  - exists [97; 46; 115; 99; 101; 108], [98].
    repeat split; try discriminate. by exists [97].
  - left. intros H. discriminate H.
Defined.
